(** * Minesweeper knowledge base: a shallow embedding of [minesweeper.py]

    The Python classes [Minesweeper], [Sentence] and [MinesweeperAI] are
    embedded as records.  The methods of [MinesweeperAI] run in a small
    state and exception monad over the record, so that every read and
    write of [self] is explicit; the methods of [Minesweeper] only read
    the game and return a result or an exception.  Sets of cells are
    [gset]s, Python integers are [Z], and the sentence list is a [list]
    addressed by index (the objects of the list are mutated in place by
    the source, and nothing else refers to them). *)

From stdpp Require Import base numbers list sets gmap.

Local Open Scope Z_scope.

(** A cell is the Python tuple [(i, j)] of two integers. *)
Abbreviation Cell := (Z * Z)%type.

(** ** Python built-ins used by the source *)

(** [range(lo, hi)] *)
Definition range (lo hi : Z) : list Z := seqZ lo (hi - lo).

(** [len(s)] for a set, as a Python integer. *)
Definition len (s : gset Cell) : Z := Z.of_nat (size s).

(** Exceptions the built-ins of the source can raise.  [OutOfFuel] is not
    a Python exception: it marks a loop of the model that was given too
    few iterations, and is shown never to happen. *)
Inductive exn : Type := KeyError | ValueError | IndexError | OutOfFuel.

Inductive result (A : Type) : Type :=
| Returned (a : A)
| Raised (e : exn).
Arguments Returned {A} a.
Arguments Raised {A} e.

(** [list.remove(x)]: drops the first element equal to [x] ([==], which
    for sentences is [Sentence.__eq__]); [ValueError] when there is none. *)
Fixpoint list_remove_first {A} `{EqDecision A} (x : A) (l : list A) : option (list A) :=
  match l with
  | [] => None
  | y :: l' => if decide (y = x) then Some l'
               else cons y <$> list_remove_first x l'
  end.

(** [set.pop()]: removes and returns some element; the source only pops
    sets of length one.  [KeyError] on the empty set. *)
Definition set_pop (s : gset Cell) : option Cell := head (elements s).

(** [l[i]]: a negative index counts from the end; [IndexError] out of
    range. *)
Definition getitem {A} (l : list A) (i : Z) : result A :=
  let n := Z.of_nat (length l) in
  let k := if decide (i < 0) then i + n else i in
  if decide (0 ≤ k ∧ k < n) then
    match l !! Z.to_nat k with
    | Some x => Returned x
    | None => Raised IndexError
    end
  else Raised IndexError.

(** [l[i] = x], with the same indices *)
Definition setitem {A} (l : list A) (i : Z) (x : A) : result (list A) :=
  let n := Z.of_nat (length l) in
  let k := if decide (i < 0) then i + n else i in
  if decide (0 ≤ k ∧ k < n) then Returned (<[Z.to_nat k := x]> l)
  else Raised IndexError.

(** [random.randrange(n)]: an integer from 0 to [n - 1], here the one
    that the random number [r] selects; [ValueError] when [n <= 0]. *)
Definition randrange (n : Z) (r : nat) : result Z :=
  if decide (0 < n) then Returned (Z.of_nat r `mod` n) else Raised ValueError.

#[global] Instance result_ret : MRet result := @Returned.
#[global] Instance result_bind : MBind result :=
  λ A B f r, match r with Returned a => f a | Raised e => Raised e end.

(** a loop carrying the local [acc], in code that may raise *)
Fixpoint fold_result {A B} (l : list A) (body : A → B → result B) (acc : B) : result B :=
  match l with
  | [] => Returned acc
  | x :: l' => acc' ← body x acc; fold_result l' body acc'
  end.

(** ** class Minesweeper

    The game is the oracle of the knowledge base.  [__init__] draws the
    mines at random: the random numbers are an argument of its model.
    [print] only writes to the terminal. *)

Module Minesweeper.

Record t : Type := Game {
  height : Z;
  width : Z;
  mines : gset Cell;
  board : list (list bool);
  mines_found : gset Cell
}.

Definition is_mine (cell : Cell) (self : t) : result bool :=
  let '(i, j) := cell in
  row ← getitem (board self) i;
  getitem row j.

(** the body of the two nested loops; the local is [count] *)
Definition nearby_mines_body (cell : Cell) (i j : Z) (self : t) (count : Z) : result Z :=
  if decide ((i, j) = cell) then Returned count
  else if bool_decide (0 ≤ i ∧ i < height self) && bool_decide (0 ≤ j ∧ j < width self)
  then
    row ← getitem (board self) i;
    b ← getitem row j;
    if b : bool then Returned (count + 1) else Returned count
  else Returned count.

Definition nearby_mines (cell : Cell) (self : t) : result Z :=
  fold_result (range (cell.1 - 1) (cell.1 + 2))
    (λ i count,
       fold_result (range (cell.2 - 1) (cell.2 + 2))
         (λ j count, nearby_mines_body cell i j self count) count)
    0.

Definition won (self : t) : bool := bool_decide (mines_found self = mines self).

(** [__init__]: the two loops that build the empty field; every row is
    a list of its own *)
Definition empty_board (height width : Z) : list (list bool) :=
  foldl (λ board _,
           let row := foldl (λ row _, row ++ [false]) [] (range 0 width) in
           board ++ [row])
        [] (range 0 height).

(** [__init__]: [while len(self.mines) != mines].  Every round takes two
    random numbers from [draws]; the loop is out of fuel when it needs
    more of them than [draws] holds. *)
Fixpoint place_mines (draws : list (nat * nat)) (height width n_mines : Z)
    (self : t) : result t :=
  if decide (len (mines self) ≠ n_mines) then
    match draws with
    | [] => Raised OutOfFuel
    | (r1, r2) :: draws' =>
        i ← randrange height r1;
        j ← randrange width r2;
        row ← getitem (board self) i;
        b ← getitem row j;
        if negb b then
          row' ← setitem row j true;
          board' ← setitem (board self) i row';
          place_mines draws' height width n_mines
            (Game (Minesweeper.height self) (Minesweeper.width self)
                  ({[(i, j)]} ∪ mines self) board' (mines_found self))
        else place_mines draws' height width n_mines self
    end
  else Returned self.

(** [Minesweeper(height, width, mines)] *)
Definition init (height width n_mines : Z) (draws : list (nat * nat)) : result t :=
  place_mines draws height width n_mines
    (Game height width ∅ (empty_board height width) ∅).

End Minesweeper.

(** ** class Sentence *)

Module Sentence.

Record t : Type := Sentence { cells : gset Cell; count : Z }.

(** [__eq__]: equal cell sets and equal counts, which is equality of
    the record. *)
#[global] Instance eq_dec : EqDecision t.
Proof. solve_decision. Defined.

Definition known_mines (self : t) : gset Cell :=
  if decide (len (cells self) = count self) then cells self else ∅.

Definition known_safes (self : t) : gset Cell :=
  if decide (count self = 0) then cells self else ∅.

Definition mark_mine (cell : Cell) (self : t) : t :=
  if decide (cell ∈ cells self)
  then Sentence (cells self ∖ {[cell]}) (count self - 1)
  else self.

Definition mark_safe (cell : Cell) (self : t) : t :=
  if decide (cell ∈ cells self)
  then Sentence (cells self ∖ {[cell]}) (count self)
  else self.

End Sentence.

(** ** class MinesweeperAI *)

Module MinesweeperAI.

Record t : Type := AI {
  height : Z;
  width : Z;
  moves_made : gset Cell;
  mines : gset Cell;
  safes : gset Cell;
  knowledge : list Sentence.t
}.

(** [MinesweeperAI(height, width)] *)
Definition init (height width : Z) : t := AI height width ∅ ∅ ∅ [].

Definition set_moves_made (v : gset Cell) (self : t) : t :=
  AI (height self) (width self) v (mines self) (safes self) (knowledge self).
Definition set_mines (v : gset Cell) (self : t) : t :=
  AI (height self) (width self) (moves_made self) v (safes self) (knowledge self).
Definition set_safes (v : gset Cell) (self : t) : t :=
  AI (height self) (width self) (moves_made self) (mines self) v (knowledge self).
Definition set_knowledge (v : list Sentence.t) (self : t) : t :=
  AI (height self) (width self) (moves_made self) (mines self) (safes self) v.

(** *** The monad of methods: state [self], result or exception *)

Definition M (A : Type) : Type := t → result A * t.

Definition ret {A} (a : A) : M A := λ self, (Returned a, self).
Definition raise {A} (e : exn) : M A := λ self, (Raised e, self).
Definition bind {A B} (m : M A) (f : A → M B) : M B :=
  λ self, match m self with
          | (Returned a, self') => f a self'
          | (Raised e, self') => (Raised e, self')
          end.
Definition gets {A} (f : t → A) : M A := λ self, (Returned (f self), self).
Definition modify (f : t → t) : M unit := λ self, (Returned tt, f self).

#[global] Instance M_ret : MRet M := @ret.
#[global] Instance M_bind : MBind M := λ A B f m, bind m f.

(** [for x in l: body x], over a list that the body does not change *)
Fixpoint for_ {A} (l : list A) (body : A → M unit) : M unit :=
  match l with
  | [] => mret tt
  | x :: l' => body x ;; for_ l' body
  end.

(** a loop carrying local variables [acc] *)
Fixpoint fold_ {A B} (l : list A) (body : A → B → M B) (acc : B) : M B :=
  match l with
  | [] => mret acc
  | x :: l' => acc' ← body x acc; fold_ l' body acc'
  end.

(** state and outcome of a call *)
Definition exec {A} (m : M A) (self : t) : t := (m self).2.
Definition outcome {A} (m : M A) (self : t) : result A := (m self).1.

(** *** mark_mine, mark_safe *)

Definition mark_mine (cell : Cell) : M unit :=
  modify (λ self, set_mines ({[cell]} ∪ mines self) self) ;;
  modify (λ self, set_knowledge (Sentence.mark_mine cell <$> knowledge self) self).

Definition mark_safe (cell : Cell) : M unit :=
  modify (λ self, set_safes ({[cell]} ∪ safes self) self) ;;
  modify (λ self, set_knowledge (Sentence.mark_safe cell <$> knowledge self) self).

(** *** neighboring_cells *)

(** [(row, col) is not self.moves_made]: a tuple is never the same
    object as the set, so the test is always true. *)
Definition is_not (x : Cell) (s : gset Cell) : bool := true.

(** the body of the two nested loops; the locals are
    [acc = (neighbors, mines)] *)
Definition neighboring_cells_body (cell : Cell) (row col : Z)
    (acc : gset Cell * Z) : M (gset Cell * Z) :=
  w ← gets width;
  h ← gets height;
  mm ← gets moves_made;
  if bool_decide (col >= 0 ∧ col < w)
     && bool_decide ((row, col) ≠ cell)
     && bool_decide (row >= 0 ∧ row < h)
     && is_not (row, col) mm
  then
    ms ← gets mines;
    if decide ((row, col) ∈ ms) then mret (acc.1, acc.2 + 1)
    else
      ss ← gets safes;
      if decide ((row, col) ∈ ss) then mret acc
      else mret ({[(row, col)]} ∪ acc.1, acc.2)
  else mret acc.

Definition neighboring_cells (cell : Cell) : M (gset Cell * Z) :=
  let '(i, j) := cell in
  fold_ (range (i - 1) (i + 2))
    (λ row acc,
       fold_ (range (j - 1) (j + 2))
         (λ col acc, neighboring_cells_body cell row col acc) acc)
    (∅, 0).

(** *** add_knowledge *)

(** step 1 and step 2 *)
Definition record_move (cell : Cell) : M unit :=
  modify (λ self, set_moves_made ({[cell]} ∪ moves_made self) self);;
  modify (λ self, set_safes ({[cell]} ∪ safes self) self).

(** step 3: the sentence built from the two calls of
    [neighboring_cells] *)
Definition new_sentence (cell : Cell) (count : Z) : M Sentence.t :=
  r1 ← neighboring_cells cell;
  let neighbors := r1.1 in
  r2 ← neighboring_cells cell;
  let detected_mines := r2.2 in
  let count := count - detected_mines in
  mret (Sentence.Sentence neighbors count).

(** [if new_sentence not in self.knowledge: self.knowledge.append(new_sentence)] *)
Definition append_if_new (new_sentence : Sentence.t) : M unit :=
  kb ← gets knowledge;
  if decide (new_sentence ∈ kb) then mret tt
  else modify (λ self, set_knowledge (knowledge self ++ [new_sentence]) self).

(** The sentence object at position [i] of [self.knowledge], as it is
    now. *)
Definition sentence_at (i : nat) : M Sentence.t :=
  kb ← gets knowledge;
  match kb !! i with
  | Some sentence => mret sentence
  | None => raise IndexError
  end.

(** [for sentence in self.knowledge: body], Python's list iterator: an
    index into the live list, which stops when the index reaches its
    current length.  [body] receives the position of the object. *)
Fixpoint for_knowledge (fuel : nat) (i : nat) (body : nat → M unit) : M unit :=
  match fuel with
  | O => raise OutOfFuel
  | S fuel' =>
      kb ← gets knowledge;
      match kb !! i with
      | None => mret tt
      | Some _ => body i;; for_knowledge fuel' (S i) body
      end
  end.

(** step 4, the body of the loop.  A Python set is iterated in an
    unspecified order; [elements] is one such order (the marks of
    different cells commute, see [for_mark_safe_perm]). *)
Definition simple_facts (i : nat) : M unit :=
  sentence ← sentence_at i;
  let known_safes := Sentence.known_safes sentence in
  for_ (elements known_safes) mark_safe;;
  sentence ← sentence_at i;
  let known_mines := Sentence.known_mines sentence in
  for_ (elements known_mines) mark_mine.

(** step 4 *)
Definition simple_fact_pass : M unit :=
  n ← gets (λ self, length (knowledge self));
  for_knowledge (S n) 0 simple_facts.

(** step 5, the choice of [subset], [bigset] and [diff_count] for a
    pair; [None] is [continue] *)
Definition orient (sentence1 sentence2 : Sentence.t) : option (gset Cell * gset Cell * Z) :=
  let l1 := len (Sentence.cells sentence1) in
  let l2 := len (Sentence.cells sentence2) in
  if bool_decide (l2 < l1) && bool_decide (l1 ≠ 0) && bool_decide (l2 ≠ 0)
  then Some (Sentence.cells sentence2, Sentence.cells sentence1,
             Sentence.count sentence1 - Sentence.count sentence2)
  else if bool_decide (l2 = l1) then None
  else if bool_decide (l2 > l1) && bool_decide (l1 ≠ 0) && bool_decide (l2 ≠ 0)
  then Some (Sentence.cells sentence1, Sentence.cells sentence2,
             Sentence.count sentence2 - Sentence.count sentence1)
  else None.

(** [x = diff_set.pop(); mark x] *)
Definition pop_and (mark : Cell → M unit) (diff_set : gset Cell) : M unit :=
  match set_pop diff_set with
  | Some x => mark x
  | None => raise KeyError
  end.

(** step 5, the body of the inner loop *)
Definition resolve_pair (sentence1 sentence2 : Sentence.t) : M unit :=
  match orient sentence1 sentence2 with
  | None => mret tt
  | Some (subset, bigset, diff_count) =>
      if decide (subset ⊆ bigset) then
        let diff_set := bigset ∖ subset in
        if decide (len diff_set = 1) then
          if decide (diff_count = 0) then pop_and mark_safe diff_set
          else if decide (diff_count = 1) then pop_and mark_mine diff_set
          else mret tt
        else
          modify (λ self, set_knowledge
                    (knowledge self ++ [Sentence.Sentence diff_set diff_count]) self)
      else mret tt
  end.

(** step 5, the outer loop: a list iterator at index [i] over the local
    list [known_sentences], from which the body removes the sentence
    it has just been given. *)
Fixpoint sweep_loop (fuel : nat) (i : nat) (known_sentences : list Sentence.t) : M unit :=
  match fuel with
  | O => raise OutOfFuel
  | S fuel' =>
      match known_sentences !! i with
      | None => mret tt
      | Some sentence1 =>
          match list_remove_first sentence1 known_sentences with
          | None => raise ValueError
          | Some known_sentences' =>
              for_ known_sentences' (resolve_pair sentence1);;
              sweep_loop fuel' (S i) known_sentences'
          end
      end
  end.

(** step 5; [copy.deepcopy] gives the values of the sentences as they
    are now *)
Definition subset_sweep : M unit :=
  known_sentences ← gets knowledge;
  sweep_loop (S (length known_sentences)) 0 known_sentences.

Definition add_knowledge (cell : Cell) (count : Z) : M unit :=
  record_move cell;;
  new_sentence ← new_sentence cell count;
  append_if_new new_sentence;;
  simple_fact_pass;;
  subset_sweep.

(** *** make_safe_move

    [for move in self.safes] visits the set in an order Python does not
    specify: [iter] is that order, any enumeration of the set.  The
    [print] calls have no effect on [self] and are left out. *)
Fixpoint first_unmade (order : list Cell) : M (option Cell) :=
  match order with
  | [] => mret None
  | move :: order' =>
      mm ← gets moves_made;
      if decide (move ∈ mm) then first_unmade order'
      else
        let safe_move := move in
        modify (λ self, set_moves_made ({[safe_move]} ∪ moves_made self) self);;
        mret (Some safe_move)
  end.

Definition make_safe_move (iter : gset Cell → list Cell) : M (option Cell) :=
  ss ← gets safes;
  first_unmade (iter ss).

(** *** make_random_move

    [random.choice(potential_move)] returns [potential_move[k]] for a
    random [k] below the length: [choice] is the random number drawn. *)
Definition board_cells (height width : Z) : list Cell :=
  row ← range 0 height; col ← range 0 width; [(row, col)].

Definition make_random_move (choice : nat) : M (option Cell) :=
  h ← gets height;
  w ← gets width;
  let board := board_cells h w in
  potential_move ← fold_ board
    (λ pot_cell potential_move,
       ms ← gets mines;
       mm ← gets moves_made;
       if bool_decide (pot_cell ∉ ms) && bool_decide (pot_cell ∉ mm)
       then mret (potential_move ++ [pot_cell])
       else mret potential_move) [];
  if decide (length potential_move = 0%nat) then mret None
  else
    match potential_move !! (choice `mod` length potential_move)%nat with
    | None => raise IndexError
    | Some random_move =>
        modify (λ self, set_moves_made ({[random_move]} ∪ moves_made self) self);;
        mret (Some random_move)
    end.

End MinesweeperAI.

Import MinesweeperAI.

(** * The vocabulary of the properties *)

(** [hoare P m Q]: from a state satisfying [P], the call [m] returns (it
    raises nothing and does not run out of fuel) with a result and a
    final state satisfying [Q]. *)
Definition hoare {A} (P : MinesweeperAI.t → Prop) (m : M A)
    (Q : A → MinesweeperAI.t → Prop) : Prop :=
  ∀ self, P self → ∃ a self', m self = (Returned a, self') ∧ Q a self'.

(** what every call keeps: the board size, and the members of the three
    sets *)
Definition grows (self0 self : MinesweeperAI.t) : Prop :=
  height self = height self0 ∧ width self = width self0 ∧
  moves_made self0 ⊆ moves_made self ∧
  mines self0 ⊆ mines self ∧
  safes self0 ⊆ safes self.

(** the bounds test of [neighboring_cells] *)
Definition in_bounds (self : MinesweeperAI.t) (x : Cell) : Prop :=
  (0 ≤ x.1 ∧ x.1 < height self) ∧ (0 ≤ x.2 ∧ x.2 < width self).

(** one round of the inner loop, on the locals [(neighbors, mines)] *)
Definition scan_cell (self : MinesweeperAI.t) (cell x : Cell)
    (acc : gset Cell * Z) : gset Cell * Z :=
  if decide (x ≠ cell ∧ in_bounds self x) then
    if decide (x ∈ mines self) then (acc.1, acc.2 + 1)
    else if decide (x ∈ safes self) then acc
    else ({[x]} ∪ acc.1, acc.2)
  else acc.

(** the cells the two loops visit, in the order they visit them *)
Definition block (cell : Cell) : list Cell :=
  row ← range (cell.1 - 1) (cell.1 + 2);
  col ← range (cell.2 - 1) (cell.2 + 2);
  [(row, col)].

(** the locals [(neighbors, mines)] that [neighboring_cells] returns *)
Definition scan (self : MinesweeperAI.t) (cell : Cell) : gset Cell * Z :=
  foldl (λ acc x, scan_cell self cell x acc) (∅, 0) (block cell).

(** The neighbourhood of the specification: the cells next to [cell] in
    a row, a column or a diagonal, that lie on the board. *)
Definition grid_neighbor (self : MinesweeperAI.t) (cell x : Cell) : Prop :=
  x ≠ cell ∧ (Z.abs (x.1 - cell.1) ≤ 1 ∧ Z.abs (x.2 - cell.2) ≤ 1) ∧
  (0 ≤ x.1 ∧ x.1 < height self) ∧ (0 ≤ x.2 ∧ x.2 < width self).

#[global] Instance grid_neighbor_dec self cell x : Decision (grid_neighbor self cell x).
Proof. unfold grid_neighbor. apply _. Defined.

(** the state in which the loops of steps 4 and 5 start *)
Definition observed (cell : Cell) (count : Z) (self : MinesweeperAI.t) : MinesweeperAI.t :=
  exec (record_move cell;; sentence ← new_sentence cell count; append_if_new sentence) self.

(** the list [potential_move] that [make_random_move] builds *)
Definition potential_moves (self : MinesweeperAI.t) : list Cell :=
  filter (λ pot_cell, (pot_cell ∉ mines self) ∧ (pot_cell ∉ moves_made self))
         (board_cells (height self) (width self)).

(** What [Minesweeper.__init__] sets up: [board] has [height] rows of
    [width] entries, and [mines] holds the positions of the entries that
    are [True]. *)
Definition game_wf (game : Minesweeper.t) : Prop :=
  length (Minesweeper.board game) = Z.to_nat (Minesweeper.height game) ∧
  Forall (λ row, length row = Z.to_nat (Minesweeper.width game))
         (Minesweeper.board game) ∧
  ∀ i j, (i, j) ∈ Minesweeper.mines game ↔
         ((0 ≤ i ∧ i < Minesweeper.height game) ∧
          (0 ≤ j ∧ j < Minesweeper.width game)) ∧
         Minesweeper.is_mine (i, j) game = Returned true.

(** ** The oracle: a board, and the counts it reports

    The knowledge base never sees the board.  [board] is the set of cells
    that hold a mine; the count reported for a cell is the number of
    mines among its neighbours on the grid. *)

Section oracle.
Variable board : gset Cell.

(** the count an honest oracle reports for [cell] *)
Definition hazard_count (self : MinesweeperAI.t) (cell : Cell) : Z :=
  len (filter (grid_neighbor self cell) board).

(** a sentence that is true of the board *)
Definition true_sentence (sentence : Sentence.t) : Prop :=
  Sentence.count sentence = len (Sentence.cells sentence ∩ board).

(** a knowledge base that is true of the board *)
Definition sound (self : MinesweeperAI.t) : Prop :=
  mines self ⊆ board ∧ safes self ## board ∧
  Forall true_sentence (knowledge self).

(** A game played by the rules from a fresh knowledge base: only cells
    without a mine are reported, with their true count; the move
    selectors may be called at any time. *)
Inductive played (height width : Z) : MinesweeperAI.t → Prop :=
| played_init : played height width (init height width)
| played_add_knowledge self cell :
    played height width self → cell ∉ board →
    played height width (exec (add_knowledge cell (hazard_count self cell)) self)
| played_safe_move self iter :
    played height width self →
    played height width (exec (make_safe_move iter) self)
| played_random_move self choice :
    played height width self →
    played height width (exec (make_random_move choice) self).

End oracle.

(** ** Marking a whole set *)

(** what [for c in L: sentence.mark_safe(c)] leaves of a sentence *)
Definition mark_safe_all (L : gset Cell) (sentence : Sentence.t) : Sentence.t :=
  Sentence.Sentence (Sentence.cells sentence ∖ L) (Sentence.count sentence).

(** what [for c in L: sentence.mark_mine(c)] leaves of a sentence *)
Definition mark_mine_all (L : gset Cell) (sentence : Sentence.t) : Sentence.t :=
  Sentence.Sentence (Sentence.cells sentence ∖ L)
    (Sentence.count sentence - len (Sentence.cells sentence ∩ L)).

(** a sentence whose cells have all been resolved *)
Definition resolved (sentence : Sentence.t) : Prop :=
  Sentence.cells sentence = ∅.

(** a sentence from which step 4 learns nothing *)
Definition quiet (sentence : Sentence.t) : Prop :=
  Sentence.known_safes sentence = ∅ ∧ Sentence.known_mines sentence = ∅.



#[global] Instance resolved_dec sentence : Decision (resolved sentence).
Proof. unfold resolved. apply _. Defined.

(** a sequence of calls of [add_knowledge] *)
Definition ingest_all (calls : list (Cell * Z)) (self : MinesweeperAI.t) : MinesweeperAI.t :=
  foldl (λ self call, exec (add_knowledge call.1 call.2) self) self calls.

(** [steps_4_5] is what [add_knowledge] runs after it has stored the new
    sentence; a state is saturated when running it once more changes
    nothing. *)
Definition steps_4_5 : M unit := simple_fact_pass;; subset_sweep.


(** ** What a call keeps of the sentences it held *)

(** every sentence of [self0] is still at its position in [self], with
    some of its cells removed, and the removed cells are known *)
Definition kept (self0 self : MinesweeperAI.t) : Prop :=
  ∀ i sentence, knowledge self0 !! i = Some sentence →
    ∃ sentence', knowledge self !! i = Some sentence' ∧
      Sentence.cells sentence' ⊆ Sentence.cells sentence ∧
      Sentence.cells sentence ⊆ Sentence.cells sentence' ∪ mines self ∪ safes self.

(** the cells of the observation are marked as its count says *)
Definition settled_observation (observation : Sentence.t) (self : MinesweeperAI.t) : Prop :=
  (Sentence.count observation = 0 → Sentence.cells observation ⊆ safes self) ∧
  (len (Sentence.cells observation) = Sentence.count observation →
   Sentence.cells observation ⊆ mines self).

(** the invariant of step 4 in an honest game, for the observation at
    position [p] of the list of [self1] *)
Definition scenario_inv (board : gset Cell) (self1 : MinesweeperAI.t) (p : nat)
    (observation : Sentence.t) (i : nat) (self : MinesweeperAI.t) : Prop :=
  sound board self ∧ kept self1 self ∧
  ((p < i)%nat → settled_observation observation self).

(** ** The field of the game *)

(** the entry of the field at an index pair that is in range *)
Definition entry (board : list (list bool)) (i j : Z) : option bool :=
  row ← board !! Z.to_nat i; row !! Z.to_nat j.

(** what the loop of [__init__] keeps *)
Definition field_ok (game : Minesweeper.t) : Prop :=
  length (Minesweeper.board game) = Z.to_nat (Minesweeper.height game) ∧
  Forall (λ row, length row = Z.to_nat (Minesweeper.width game))
         (Minesweeper.board game) ∧
  Minesweeper.mines_found game = ∅ ∧
  ∀ i j, (i, j) ∈ Minesweeper.mines game ↔
         ((0 ≤ i ∧ i < Minesweeper.height game) ∧
          (0 ≤ j ∧ j < Minesweeper.width game)) ∧
         entry (Minesweeper.board game) i j = Some true.

(** A knowledge base driven by a game, as the runner does: a cell is
    reported when [is_mine] denies it, with the count [nearby_mines]
    returns. *)
Inductive driven (game : Minesweeper.t) : MinesweeperAI.t → Prop :=
| driven_init :
    driven game (init (Minesweeper.height game) (Minesweeper.width game))
| driven_add_knowledge self cell count :
    driven game self →
    Minesweeper.is_mine cell game = Returned false →
    Minesweeper.nearby_mines cell game = Returned count →
    driven game (exec (add_knowledge cell count) self)
| driven_safe_move self iter :
    driven game self → driven game (exec (make_safe_move iter) self)
| driven_random_move self choice :
    driven game self → driven game (exec (make_random_move choice) self).

(** a 3 by 3 game with one mine, in the corner (2,2) *)
Definition corner_game : Minesweeper.t :=
  Minesweeper.Game 3 3 {[(2, 2)]}
    [[false; false; false]; [false; false; false]; [false; false; true]] ∅.

(** * Properties *)

(** ** Rules for calls that return *)

Lemma hoare_conseq {A} (P P' : MinesweeperAI.t → Prop) (m : M A)
    (Q Q' : A → MinesweeperAI.t → Prop) :
  hoare P' m Q' → (∀ self, P self → P' self) →
  (∀ a self, Q' a self → Q a self) → hoare P m Q.
Proof.
  intros Hm HP HQ self Hself.
  destruct (Hm self (HP _ Hself)) as (a & self' & Heq & Hq); eauto.
Qed.

Lemma hoare_pre {A} (P P' : MinesweeperAI.t → Prop) (m : M A) Q :
  hoare P' m Q → (∀ self, P self → P' self) → hoare P m Q.
Proof. intros Hm HP. eapply hoare_conseq; eauto. Qed.

(** the initial state may be named *)
Lemma hoare_self {A} (P : MinesweeperAI.t → Prop) (m : M A) Q :
  (∀ self0, P self0 → hoare (λ self, self = self0) m Q) → hoare P m Q.
Proof. intros H self Hp. exact (H self Hp self eq_refl). Qed.

Lemma hoare_ret {A} (P : MinesweeperAI.t → Prop) (a : A) (Q : A → MinesweeperAI.t → Prop) :
  (∀ self, P self → Q a self) → hoare P (mret a) Q.
Proof. intros H self Hp. exists a, self. split; [reflexivity | auto]. Qed.

Lemma hoare_bind {A B} (P : MinesweeperAI.t → Prop) (m : M A) (f : A → M B)
    (R : A → MinesweeperAI.t → Prop) (Q : B → MinesweeperAI.t → Prop) :
  hoare P m R → (∀ a, hoare (R a) (f a) Q) → hoare P (m ≫= f) Q.
Proof.
  intros Hm Hf self Hp.
  destruct (Hm self Hp) as (a & self' & Heq & Hr).
  destruct (Hf a self' Hr) as (b & self'' & Heq' & Hq).
  exists b, self''. split; [| assumption].
  unfold mbind, M_bind, bind. rewrite Heq. assumption.
Qed.

Lemma hoare_gets {A} (P : MinesweeperAI.t → Prop) (f : MinesweeperAI.t → A)
    (Q : A → MinesweeperAI.t → Prop) :
  (∀ self, P self → Q (f self) self) → hoare P (gets f) Q.
Proof. intros H self Hp. exists (f self), self. split; [reflexivity | auto]. Qed.

Lemma hoare_modify (P : MinesweeperAI.t → Prop) (f : MinesweeperAI.t → MinesweeperAI.t)
    (Q : unit → MinesweeperAI.t → Prop) :
  (∀ self, P self → Q tt (f self)) → hoare P (modify f) Q.
Proof. intros H self Hp. exists tt, (f self). split; [reflexivity | auto]. Qed.

(** a loop keeps what each round keeps *)
Lemma hoare_for {A} (I : MinesweeperAI.t → Prop) (l : list A) (body : A → M unit) :
  (∀ x, x ∈ l → hoare I (body x) (λ _, I)) → hoare I (for_ l body) (λ _, I).
Proof.
  induction l as [| x l IH]; intros Hbody; simpl.
  - apply hoare_ret. auto.
  - eapply hoare_bind.
    + apply Hbody. left.
    + intros ?. apply IH. intros y Hy. apply Hbody. by right.
Qed.

(** what a call does, when it returns *)
Lemma hoare_exec {A} (P : MinesweeperAI.t → Prop) (m : M A) Q self :
  hoare P m Q → P self → ∃ a, outcome m self = Returned a ∧ Q a (exec m self).
Proof.
  intros H Hp. destruct (H self Hp) as (a & self' & Heq & Hq).
  exists a. unfold outcome, exec. rewrite Heq. auto.
Qed.

(** a fact that holds of every initial state may be used *)
Lemma hoare_fact {A} (fact : Prop) (P : MinesweeperAI.t → Prop) (m : M A) Q :
  (∀ self, P self → fact) → (fact → hoare P m Q) → hoare P m Q.
Proof. intros Hfact Hm self Hp. exact (Hm (Hfact self Hp) self Hp). Qed.

Lemma hoare_forget_length {A} (I : MinesweeperAI.t → Prop) (m : M A) :
  (∀ n, hoare (λ self, I self ∧ length (knowledge self) = n) m
              (λ _ self, I self ∧ length (knowledge self) = n)) →
  hoare I m (λ _, I).
Proof.
  intros Hm. apply hoare_self. intros self0 H0.
  eapply hoare_conseq; [apply (Hm (length (knowledge self0))) | |].
  - by intros self ->.
  - by intros ? self [? _].
Qed.

(** ** The built-ins *)

Lemma list_remove_first_elem {A} `{EqDecision A} (x : A) (l : list A) :
  x ∈ l →
  ∃ l', list_remove_first x l = Some l' ∧ length l = S (length l') ∧ l' ⊆ l.
Proof.
  induction l as [| y l IH]; intros Hx.
  - by apply elem_of_nil in Hx.
  - simpl. destruct (decide (y = x)) as [-> | Hne].
    + exists l. split_and!; [done | done |]. intros z Hz. by right.
    + apply elem_of_cons in Hx as [-> | Hx]; [done |].
      destruct (IH Hx) as (l' & -> & Hlen & Hsub).
      exists (y :: l'). simpl. split_and!; [done | by rewrite Hlen |].
      intros z [-> | Hz]%elem_of_cons; [left | right; auto].
Qed.

Lemma set_pop_singleton (s : gset Cell) :
  len s = 1 → ∃ x, set_pop s = Some x ∧ s = {[x]}.
Proof.
  unfold len, set_pop. intros Hs.
  assert (size s = 1%nat) as Hsz by lia.
  apply size_1_elem_of in Hsz as [x Hx].
  apply leibniz_equiv in Hx. subst s.
  exists x. by rewrite elements_singleton.
Qed.

(** ** The marks, as state transformers *)

Lemma mark_safe_run cell self :
  mark_safe cell self =
  (Returned tt,
   AI (height self) (width self) (moves_made self) (mines self)
      ({[cell]} ∪ safes self) (Sentence.mark_safe cell <$> knowledge self)).
Proof. reflexivity. Qed.

Lemma mark_mine_run cell self :
  mark_mine cell self =
  (Returned tt,
   AI (height self) (width self) (moves_made self) ({[cell]} ∪ mines self)
      (safes self) (Sentence.mark_mine cell <$> knowledge self)).
Proof. reflexivity. Qed.

Lemma hoare_mark_safe cell (P : MinesweeperAI.t → Prop) (Q : unit → MinesweeperAI.t → Prop) :
  (∀ self, P self →
     Q tt (AI (height self) (width self) (moves_made self) (mines self)
              ({[cell]} ∪ safes self) (Sentence.mark_safe cell <$> knowledge self))) →
  hoare P (mark_safe cell) Q.
Proof. intros H self Hp. eexists _, _. rewrite mark_safe_run. eauto. Qed.

Lemma hoare_mark_mine cell (P : MinesweeperAI.t → Prop) (Q : unit → MinesweeperAI.t → Prop) :
  (∀ self, P self →
     Q tt (AI (height self) (width self) (moves_made self) ({[cell]} ∪ mines self)
              (safes self) (Sentence.mark_mine cell <$> knowledge self))) →
  hoare P (mark_mine cell) Q.
Proof. intros H self Hp. eexists _, _. rewrite mark_mine_run. eauto. Qed.

(** ** The loops of add_knowledge *)

Lemma hoare_sentence_at i (P : MinesweeperAI.t → Prop) :
  hoare (λ self, P self ∧ (i < length (knowledge self))%nat)
        (sentence_at i)
        (λ sentence self, P self ∧ knowledge self !! i = Some sentence).
Proof.
  intros self [Hp Hi]. unfold sentence_at.
  destruct (lookup_lt_is_Some_2 _ _ Hi) as [s Hs].
  exists s, self. split; [| done].
  unfold mbind, M_bind, bind, gets. simpl. by rewrite Hs.
Qed.

(** Step 4 visits every position once when its body keeps the length of
    the list: the fuel [S n] of [simple_fact_pass] is enough.  The
    invariant [I i] holds before position [i] is visited. *)
Lemma hoare_for_knowledge_at (n : nat) (I : nat → MinesweeperAI.t → Prop)
    (body : nat → M unit) :
  (∀ i, (i < n)%nat →
     hoare (λ self, I i self ∧ length (knowledge self) = n) (body i)
           (λ _ self, I (S i) self ∧ length (knowledge self) = n)) →
  ∀ fuel i, (n ≤ fuel + i)%nat → (i ≤ n)%nat →
    hoare (λ self, I i self ∧ length (knowledge self) = n)
          (for_knowledge (S fuel) i body)
          (λ _ self, I n self ∧ length (knowledge self) = n).
Proof.
  intros Hbody fuel. induction fuel as [| fuel IH]; intros i Hfuel Hi self [HI Hlen].
  - simpl. unfold mbind, M_bind, bind, gets. simpl.
    rewrite lookup_ge_None_2 by lia.
    assert (i = n) as -> by lia. by eexists _, _.
  - cbn [for_knowledge]. unfold mbind at 1, M_bind at 1, bind at 1, gets at 1. simpl.
    destruct (knowledge self !! i) as [s |] eqn:Hs.
    + apply lookup_lt_Some in Hs.
      assert (i < n)%nat as Hlt by lia.
      apply (hoare_bind _ _ _ _ _ (Hbody i Hlt)); [| done].
      intros ?. apply IH; lia.
    + apply lookup_ge_None_1 in Hs.
      assert (i = n) as -> by lia. by eexists _, _.
Qed.

Lemma hoare_for_knowledge (n : nat) (I : MinesweeperAI.t → Prop) (body : nat → M unit) :
  (∀ i, (i < n)%nat →
     hoare (λ self, I self ∧ length (knowledge self) = n) (body i)
           (λ _ self, I self ∧ length (knowledge self) = n)) →
  hoare (λ self, I self ∧ length (knowledge self) = n)
        (for_knowledge (S n) 0 body)
        (λ _ self, I self ∧ length (knowledge self) = n).
Proof.
  intros Hbody.
  apply (hoare_for_knowledge_at n (λ _, I) body Hbody n 0%nat); lia.
Qed.

(** Step 5 likewise: every round removes one sentence from the local
    list and moves the index on by one. *)
Lemma hoare_sweep_loop (I : MinesweeperAI.t → Prop) (R : Sentence.t → Prop) :
  (∀ sentence1 sentence2, R sentence1 → R sentence2 →
     hoare I (resolve_pair sentence1 sentence2) (λ _, I)) →
  ∀ fuel i known_sentences,
    Forall R known_sentences → (length known_sentences ≤ fuel + i)%nat →
    hoare I (sweep_loop (S fuel) i known_sentences) (λ _, I).
Proof.
  intros Hpair fuel. induction fuel as [| fuel IH]; intros i ks HR Hfuel.
  - simpl. rewrite lookup_ge_None_2 by lia. by apply hoare_ret.
  - cbn [sweep_loop].
    destruct (ks !! i) as [s1 |] eqn:Hs1; [| by apply hoare_ret].
    assert (s1 ∈ ks) as Hin by (by eapply list_elem_of_lookup_2).
    destruct (list_remove_first_elem s1 ks Hin) as (ks' & -> & Hlen & Hsub).
    assert (Forall R ks') as HR'.
    { rewrite Forall_forall in HR |- *. auto. }
    rewrite Forall_forall in HR.
    eapply hoare_bind.
    + apply hoare_for. intros s2 Hs2. apply Hpair; [auto |].
      rewrite Forall_forall in HR'. auto.
    + intros ?. apply IH; [done | lia].
Qed.

(** ** Every call keeps the board size and the members of the sets *)

Lemma grows_refl self : grows self self.
Proof. by unfold grows. Qed.

Lemma grows_trans self0 self1 self2 :
  grows self0 self1 → grows self1 self2 → grows self0 self2.
Proof.
  unfold grows. intros (-> & -> & ? & ? & ?) (-> & -> & ? & ? & ?).
  split_and!; [done | done | set_solver..].
Qed.

Section grows.
Variable self0 : MinesweeperAI.t.

(** the invariant of the loops of step 4: [grows] and the length of the
    sentence list *)
Let J (n : nat) (self : MinesweeperAI.t) : Prop :=
  grows self0 self ∧ length (knowledge self) = n.

Lemma mark_safe_grows n cell :
  hoare (J n) (mark_safe cell) (λ _, J n).
Proof.
  apply hoare_mark_safe. intros self [(? & ? & ? & ? & ?) Hlen].
  split; [| by simpl; rewrite length_fmap].
  unfold grows; simpl. split_and!; [done | done | done | done | set_solver].
Qed.

Lemma mark_mine_grows n cell :
  hoare (J n) (mark_mine cell) (λ _, J n).
Proof.
  apply hoare_mark_mine. intros self [(? & ? & ? & ? & ?) Hlen].
  split; [| by simpl; rewrite length_fmap].
  unfold grows; simpl. split_and!; [done | done | done | set_solver | done].
Qed.

Lemma simple_facts_grows n i :
  (i < n)%nat → hoare (J n) (simple_facts i) (λ _, J n).
Proof.
  intros Hi. unfold simple_facts.
  eapply hoare_bind.
  { eapply hoare_pre; [apply (hoare_sentence_at i (J n)) |].
    intros self [? Hlen]. split; [done | lia]. }
  intros sentence. eapply hoare_bind.
  { eapply hoare_pre; [apply hoare_for; intros; apply mark_safe_grows |].
    by intros self [? _]. }
  intros ?. eapply hoare_bind.
  { eapply hoare_pre; [apply (hoare_sentence_at i (J n)) |].
    intros self [? Hlen]. split; [done | lia]. }
  intros sentence'.
  eapply hoare_pre; [apply hoare_for; intros; apply mark_mine_grows |].
  by intros self [? _].
Qed.

Lemma simple_fact_pass_grows :
  hoare (grows self0) simple_fact_pass (λ _, grows self0).
Proof.
  apply hoare_self. intros self1 Hgrows.
  unfold simple_fact_pass. eapply hoare_bind.
  { apply hoare_gets. intros self ->.
    instantiate (1 := λ n self, J n self). split; [done | reflexivity]. }
  intros n. cbv beta.
  eapply hoare_conseq.
  - apply (hoare_for_knowledge n (grows self0) simple_facts).
    intros i Hi. by apply simple_facts_grows.
  - done.
  - by intros ? self [? _].
Qed.

Lemma append_grows sentence :
  hoare (grows self0)
    (modify (λ self, set_knowledge (knowledge self ++ [sentence]) self))
    (λ _, grows self0).
Proof. apply hoare_modify. by intros self (? & ? & ? & ? & ?). Qed.

Lemma hoare_pop_and (I : MinesweeperAI.t → Prop) (mark : Cell → M unit) diff_set :
  len diff_set = 1 →
  (∀ x, diff_set = {[x]} → hoare I (mark x) (λ _, I)) →
  hoare I (pop_and mark diff_set) (λ _, I).
Proof.
  intros Hlen Hmark. unfold pop_and.
  destruct (set_pop_singleton _ Hlen) as (x & -> & Hx). by apply Hmark.
Qed.

Lemma resolve_pair_grows sentence1 sentence2 :
  hoare (grows self0) (resolve_pair sentence1 sentence2) (λ _, grows self0).
Proof.
  assert (∀ cell, hoare (grows self0) (mark_safe cell) (λ _, grows self0)) as Hsafe.
  { intros cell. apply hoare_self. intros self1 H1.
    eapply hoare_conseq; [apply (mark_safe_grows (length (knowledge self1)) cell) | |].
    - by intros self ->.
    - by intros ? self [? _]. }
  assert (∀ cell, hoare (grows self0) (mark_mine cell) (λ _, grows self0)) as Hmine.
  { intros cell. apply hoare_self. intros self1 H1.
    eapply hoare_conseq; [apply (mark_mine_grows (length (knowledge self1)) cell) | |].
    - by intros self ->.
    - by intros ? self [? _]. }
  unfold resolve_pair.
  destruct (orient sentence1 sentence2) as [[[subset bigset] diff_count] |];
    [| by apply hoare_ret].
  destruct (decide (subset ⊆ bigset)); [| by apply hoare_ret].
  destruct (decide (len (bigset ∖ subset) = 1)) as [Hlen |]; [| apply append_grows].
  destruct (decide (diff_count = 0)); [by apply hoare_pop_and |].
  destruct (decide (diff_count = 1)); [by apply hoare_pop_and |].
  by apply hoare_ret.
Qed.

Lemma subset_sweep_grows :
  hoare (grows self0) subset_sweep (λ _, grows self0).
Proof.
  unfold subset_sweep. eapply hoare_bind.
  { apply hoare_gets. intros self H. instantiate (1 := λ _, grows self0). exact H. }
  intros ks. apply (hoare_sweep_loop (grows self0) (λ _, True)).
  - intros. apply resolve_pair_grows.
  - by apply Forall_forall.
  - lia.
Qed.

End grows.

(** ** neighboring_cells and the sentence of step 3 *)

Lemma neighboring_cells_body_run cell row col acc self :
  neighboring_cells_body cell row col acc self =
  (Returned (scan_cell self cell (row, col) acc), self).
Proof.
  unfold neighboring_cells_body, scan_cell, in_bounds, is_not.
  unfold mbind, M_bind, bind, gets, mret, M_ret, ret. simpl.
  rewrite andb_true_r.
  destruct (decide ((row, col) ≠ cell ∧ (0 ≤ row ∧ row < height self)
                    ∧ 0 ≤ col ∧ col < width self)) as [Hok | Hno].
  - rewrite !bool_decide_eq_true_2 by (intuition lia). simpl.
    by repeat case_decide.
  - destruct (bool_decide (col >= 0 ∧ col < width self)) eqn:H1;
    destruct (bool_decide ((row, col) ≠ cell)) eqn:H2;
    destruct (bool_decide (row >= 0 ∧ row < height self)) eqn:H3; simpl; try done.
    apply bool_decide_eq_true_1 in H1, H2, H3. exfalso. apply Hno. intuition lia.
Qed.

Lemma fold_run {A B} (g : A → B → B) (body : A → B → M B) self (l : list A) :
  (∀ x acc, body x acc self = (Returned (g x acc), self)) →
  ∀ acc, fold_ l body acc self = (Returned (foldl (λ acc x, g x acc) acc l), self).
Proof.
  intros Hbody. induction l as [| x l IH]; intros acc; simpl; [done |].
  unfold mbind, M_bind, bind. rewrite Hbody. apply IH.
Qed.

Lemma foldl_bind {A B C} (f : C → B → C) (k : A → list B) (l : list A) (c : C) :
  foldl f c (l ≫= k) = foldl (λ c x, foldl f c (k x)) c l.
Proof.
  revert c. induction l as [| x l IH]; intros c; simpl; [done |].
  by rewrite foldl_app, IH.
Qed.

(** [neighboring_cells] reads [self] and leaves it as it is. *)
Lemma neighboring_cells_run cell self :
  neighboring_cells cell self =
  (Returned (foldl (λ acc x, scan_cell self cell x acc) (∅, 0) (block cell)), self).
Proof.
  destruct cell as [i j]. unfold neighboring_cells, block. simpl.
  rewrite foldl_bind.
  rewrite (fold_run
    (λ row acc, foldl (λ acc x, scan_cell self (i, j) x acc) acc
                  (range (j - 1) (j + 2) ≫= λ col, [(row, col)]))).
  - done.
  - intros row acc. rewrite foldl_bind. simpl.
    apply (fold_run (λ col acc, scan_cell self (i, j) (row, col) acc)).
    intros col acc'. apply neighboring_cells_body_run.
Qed.

Lemma scan_block_neighbors self cell (l : list Cell) acc :
  (foldl (λ acc x, scan_cell self cell x acc) acc l).1 =
  acc.1 ∪ list_to_set
            (filter (λ x, (x ≠ cell ∧ in_bounds self x) ∧ (x ∉ mines self) ∧ (x ∉ safes self)) l).
Proof.
  revert acc. induction l as [| x l IH]; intros acc; simpl.
  - set_solver.
  - rewrite IH. unfold scan_cell. rewrite filter_cons.
    repeat case_decide; simpl; set_solver.
Qed.

Lemma scan_block_mines self cell (l : list Cell) acc :
  (foldl (λ acc x, scan_cell self cell x acc) acc l).2 =
  acc.2 + Z.of_nat
            (length (filter (λ x, (x ≠ cell ∧ in_bounds self x) ∧ x ∈ mines self) l)).
Proof.
  revert acc. induction l as [| x l IH]; intros acc; simpl.
  - lia.
  - rewrite IH. unfold scan_cell. rewrite filter_cons.
    repeat case_decide; simpl; try lia; tauto.
Qed.

Lemma elem_of_block cell (x : Cell) :
  x ∈ block cell ↔
  (cell.1 - 1 ≤ x.1 ∧ x.1 ≤ cell.1 + 1) ∧ (cell.2 - 1 ≤ x.2 ∧ x.2 ≤ cell.2 + 1).
Proof.
  unfold block, range. destruct x as [r c]. simpl.
  rewrite list_elem_of_bind. split.
  - intros (row & Hin & Hrow). apply elem_of_seqZ in Hrow.
    apply list_elem_of_bind in Hin as (col & Hx & Hcol).
    apply elem_of_seqZ in Hcol.
    apply list_elem_of_singleton in Hx. inversion Hx; subst. lia.
  - intros Hx. exists r. split; [| apply elem_of_seqZ; lia].
    apply list_elem_of_bind. exists c. split; [apply list_elem_of_singleton; done |].
    apply elem_of_seqZ. lia.
Qed.

Lemma NoDup_block cell : NoDup (block cell).
Proof.
  unfold block, range.
  apply NoDup_bind.
  - intros row1 row2 x _ _ Hx1 Hx2.
    apply list_elem_of_bind in Hx1 as (col1 & Hx1 & _).
    apply list_elem_of_bind in Hx2 as (col2 & Hx2 & _).
    apply list_elem_of_singleton in Hx1, Hx2. congruence.
  - intros row _. apply NoDup_bind.
    + intros col1 col2 x _ _ Hx1 Hx2.
      apply list_elem_of_singleton in Hx1, Hx2. congruence.
    + intros. apply NoDup_singleton.
    + apply NoDup_seqZ.
  - apply NoDup_seqZ.
Qed.

Lemma new_sentence_run cell count self :
  new_sentence cell count self =
  (Returned (Sentence.Sentence (scan self cell).1 (count - (scan self cell).2)), self).
Proof.
  unfold new_sentence, mbind, M_bind, bind.
  by rewrite !neighboring_cells_run.
Qed.

Lemma grid_neighbor_block self cell x :
  grid_neighbor self cell x ↔ x ∈ block cell ∧ x ≠ cell ∧ in_bounds self x.
Proof.
  rewrite elem_of_block. unfold grid_neighbor, in_bounds.
  destruct x as [r c], cell as [i j]. simpl. intuition lia.
Qed.

Lemma scan_neighbors self cell x :
  x ∈ (scan self cell).1 ↔
  grid_neighbor self cell x ∧ (x ∉ mines self) ∧ (x ∉ safes self).
Proof.
  unfold scan. rewrite scan_block_neighbors. simpl.
  rewrite elem_of_union, elem_of_list_to_set, list_elem_of_filter, grid_neighbor_block.
  split.
  - intros [Hx | Hx]; [by apply not_elem_of_empty in Hx | tauto].
  - intros Hx. right. tauto.
Qed.

Lemma block_count (self : MinesweeperAI.t) (cell : Cell) (X : gset Cell) :
  Z.of_nat (length (filter (λ x : Cell, (x ≠ cell ∧ in_bounds self x) ∧ x ∈ X) (block cell)))
  = len (filter (grid_neighbor self cell) X).
Proof.
  unfold len. f_equal.
  rewrite <- (size_list_to_set (C := gset Cell)).
  - f_equal. apply set_eq. intros x.
    rewrite elem_of_list_to_set, list_elem_of_filter, elem_of_filter, grid_neighbor_block.
    tauto.
  - apply NoDup_filter, NoDup_block.
Qed.

Lemma scan_mines self cell :
  (scan self cell).2 = len (filter (grid_neighbor self cell) (mines self)).
Proof.
  unfold scan. rewrite scan_block_mines. simpl. rewrite Z.add_0_l.
  apply block_count.
Qed.

(** ** add_knowledge: the steps before the loops *)

Lemma record_move_run cell self :
  record_move cell self =
  (Returned tt,
   AI (height self) (width self) ({[cell]} ∪ moves_made self) (mines self)
      ({[cell]} ∪ safes self) (knowledge self)).
Proof. reflexivity. Qed.

Lemma append_if_new_run sentence self :
  append_if_new sentence self =
  (Returned tt,
   if decide (sentence ∈ knowledge self) then self
   else set_knowledge (knowledge self ++ [sentence]) self).
Proof.
  unfold append_if_new, mbind, M_bind, bind, gets. simpl.
  by destruct (decide (sentence ∈ knowledge self)).
Qed.

Lemma add_knowledge_steps cell count self :
  add_knowledge cell count self =
  (simple_fact_pass;; subset_sweep) (observed cell count self).
Proof.
  unfold add_knowledge, observed, exec, mbind, M_bind, bind.
  rewrite record_move_run, new_sentence_run, append_if_new_run. done.
Qed.

Lemma observed_grows cell count self :
  grows self (observed cell count self) ∧
  cell ∈ moves_made (observed cell count self) ∧
  cell ∈ safes (observed cell count self).
Proof.
  unfold observed, exec, mbind, M_bind, bind.
  rewrite record_move_run, new_sentence_run, append_if_new_run. simpl.
  case_decide; unfold grows; simpl; set_solver.
Qed.

(** [add_knowledge] returns, for every state and every argument, and the
    three sets have kept their members. *)
Lemma add_knowledge_grows cell count self0 :
  hoare (λ self, self = self0) (add_knowledge cell count)
        (λ _ self, grows self0 self ∧ cell ∈ moves_made self ∧ cell ∈ safes self).
Proof.
  intros self ->.
  destruct (observed_grows cell count self0) as (Hg & Hm & Hs).
  set (I := λ self, grows (observed cell count self0) self).
  assert (hoare I (simple_fact_pass;; subset_sweep) (λ _, I)) as Hloops.
  { eapply hoare_bind; [apply simple_fact_pass_grows |].
    intros ?. apply subset_sweep_grows. }
  destruct (Hloops (observed cell count self0)) as ([] & self' & Hrun & HI).
  { apply grows_refl. }
  exists tt, self'. rewrite add_knowledge_steps. split; [done |].
  split; [by eapply grows_trans |].
  destruct HI as (_ & _ & ? & _ & ?). set_solver.
Qed.

(** ** Sentences that are true of the board *)

Section oracle_facts.
Variable board : gset Cell.


Lemma len_remove_other (X : gset Cell) x :
  x ∉ board → len ((X ∖ {[x]}) ∩ board) = len (X ∩ board).
Proof. intros Hx. unfold len. do 2 f_equal. set_solver. Qed.

Lemma len_remove_mine (X : gset Cell) x :
  x ∈ board → x ∈ X → len ((X ∖ {[x]}) ∩ board) = len (X ∩ board) - 1.
Proof.
  intros Hx HX. unfold len.
  assert (X ∩ board = {[x]} ∪ (X ∖ {[x]}) ∩ board) as Heq.
  { apply set_eq. intros y. destruct (decide (y = x)); set_solver. }
  rewrite Heq.
  pose proof (size_union (C := gset Cell) {[x]} ((X ∖ {[x]}) ∩ board)) as Hsz.
  rewrite Hsz by set_solver.
  pose proof (size_singleton (C := gset Cell) x) as H1. rewrite H1. lia.
Qed.

Lemma len_difference (small big : gset Cell) :
  small ⊆ big →
  len ((big ∖ small) ∩ board) = len (big ∩ board) - len (small ∩ board).
Proof.
  intros Hsub. unfold len.
  assert (big ∩ board = (small ∩ board) ∪ (big ∖ small) ∩ board) as Heq.
  { apply set_eq. intros y. destruct (decide (y ∈ small)); set_solver. }
  rewrite Heq.
  pose proof (size_union (C := gset Cell) (small ∩ board) ((big ∖ small) ∩ board)) as Hsz.
  rewrite Hsz by set_solver. lia.
Qed.

Lemma mark_safe_true cell sentence :
  cell ∉ board → true_sentence board sentence →
  true_sentence board (Sentence.mark_safe cell sentence).
Proof.
  unfold true_sentence, Sentence.mark_safe. intros Hc Ht.
  case_decide; simpl; [| done]. by rewrite len_remove_other.
Qed.

Lemma mark_mine_true cell sentence :
  cell ∈ board → true_sentence board sentence →
  true_sentence board (Sentence.mark_mine cell sentence).
Proof.
  unfold true_sentence, Sentence.mark_mine. intros Hc Ht.
  case_decide; simpl; [| done]. rewrite len_remove_mine by done. lia.
Qed.

Lemma known_safes_true sentence x :
  true_sentence board sentence → x ∈ Sentence.known_safes sentence → x ∉ board.
Proof.
  unfold true_sentence, Sentence.known_safes, len. intros Ht Hx.
  case_decide as H0; [| by apply not_elem_of_empty in Hx].
  assert (size (Sentence.cells sentence ∩ board) = 0%nat) as Hsz by lia.
  apply size_empty_inv in Hsz. set_solver.
Qed.

Lemma known_mines_true sentence x :
  true_sentence board sentence → x ∈ Sentence.known_mines sentence → x ∈ board.
Proof.
  unfold true_sentence, Sentence.known_mines, len. intros Ht Hx.
  case_decide as Hlen; [| by apply not_elem_of_empty in Hx].
  assert (Sentence.cells sentence ∩ board = Sentence.cells sentence) as Heq.
  { apply set_subseteq_size_eq; [set_solver | lia]. }
  set_solver.
Qed.

Lemma new_sentence_true cell self :
  mines self ⊆ board → safes self ## board →
  true_sentence board
    (Sentence.Sentence (scan self cell).1
       (hazard_count board self cell - (scan self cell).2)).
Proof.
  intros Hm Hs. unfold true_sentence, hazard_count. simpl.
  rewrite scan_mines. unfold len.
  assert (filter (grid_neighbor self cell) board =
          filter (grid_neighbor self cell) (mines self) ∪ (scan self cell).1 ∩ board)
    as ->.
  { apply set_eq. intros x.
    rewrite elem_of_union, elem_of_intersection, !elem_of_filter, scan_neighbors.
    destruct (decide (x ∈ mines self)); set_solver. }
  pose proof (size_union (C := gset Cell)
                (filter (grid_neighbor self cell) (mines self))
                ((scan self cell).1 ∩ board)) as Hsz.
  rewrite Hsz; [lia |].
  intros x. rewrite elem_of_intersection, elem_of_filter, scan_neighbors. tauto.
Qed.

End oracle_facts.

(** ** A true knowledge base stays true *)

Lemma orient_Some sentence1 sentence2 subset bigset diff_count :
  orient sentence1 sentence2 = Some (subset, bigset, diff_count) →
  ∃ small big,
    (small = sentence1 ∧ big = sentence2 ∨ small = sentence2 ∧ big = sentence1) ∧
    subset = Sentence.cells small ∧ bigset = Sentence.cells big ∧
    diff_count = Sentence.count big - Sentence.count small ∧
    len subset ≠ 0 ∧ len subset < len bigset.
Proof.
  unfold orient. intros H.
  destruct (bool_decide (len (Sentence.cells sentence2) < len (Sentence.cells sentence1))) eqn:H1;
  destruct (bool_decide (len (Sentence.cells sentence1) ≠ 0)) eqn:H2;
  destruct (bool_decide (len (Sentence.cells sentence2) ≠ 0)) eqn:H3;
  destruct (bool_decide (len (Sentence.cells sentence2) = len (Sentence.cells sentence1))) eqn:H4;
  destruct (bool_decide (len (Sentence.cells sentence2) > len (Sentence.cells sentence1))) eqn:H5;
  simpl in H; try discriminate; inversion H; subst; clear H;
  repeat match goal with
         | H : bool_decide _ = true |- _ => apply bool_decide_eq_true_1 in H
         | H : bool_decide _ = false |- _ => apply bool_decide_eq_false_1 in H
         end.
  all: first [ exists sentence2, sentence1; split_and!; [tauto | done | done | done | done | lia]
             | exists sentence1, sentence2; split_and!; [tauto | done | done | done | done | lia] ].
Qed.

Section sound.
Variable board : gset Cell.

Let J (n : nat) (self : MinesweeperAI.t) : Prop :=
  sound board self ∧ length (knowledge self) = n.

Lemma mark_safe_sound n cell :
  cell ∉ board → hoare (J n) (mark_safe cell) (λ _, J n).
Proof.
  intros Hc. apply hoare_mark_safe. intros self [(Hm & Hs & Hk) Hlen].
  split; [| by simpl; rewrite length_fmap].
  unfold sound; simpl. split_and!; [done | set_solver |].
  apply Forall_fmap. eapply Forall_impl; [exact Hk |].
  intros s Hs'. by apply mark_safe_true.
Qed.

Lemma mark_mine_sound n cell :
  cell ∈ board → hoare (J n) (mark_mine cell) (λ _, J n).
Proof.
  intros Hc. apply hoare_mark_mine. intros self [(Hm & Hs & Hk) Hlen].
  split; [| by simpl; rewrite length_fmap].
  unfold sound; simpl. split_and!; [set_solver | done |].
  apply Forall_fmap. eapply Forall_impl; [exact Hk |].
  intros s Hs'. by apply mark_mine_true.
Qed.

Lemma sentence_at_sound n i :
  (i < n)%nat →
  hoare (J n) (sentence_at i) (λ sentence self, J n self ∧ true_sentence board sentence).
Proof.
  intros Hi. eapply hoare_conseq; [apply (hoare_sentence_at i (J n)) | |].
  - intros self [? Hlen]. split; [done | lia].
  - intros sentence self [[(Hm & Hs & Hk) Hlen] Hlook]. split; [done |].
    rewrite Forall_forall in Hk. apply Hk. by eapply list_elem_of_lookup_2.
Qed.

Lemma simple_facts_sound n i :
  (i < n)%nat → hoare (J n) (simple_facts i) (λ _, J n).
Proof.
  intros Hi. unfold simple_facts.
  eapply hoare_bind; [by apply sentence_at_sound |].
  intros sentence. apply (hoare_fact (true_sentence board sentence)); [by intros ? [_ ?] |].
  intros Htrue. eapply hoare_bind.
  { eapply hoare_pre; [apply hoare_for | by intros self [? _]].
    intros x Hx%elem_of_elements. apply mark_safe_sound.
    by eapply known_safes_true. }
  intros ?. eapply hoare_bind; [by apply sentence_at_sound |].
  intros sentence'. apply (hoare_fact (true_sentence board sentence')); [by intros ? [_ ?] |].
  intros Htrue'.
  eapply hoare_pre; [apply hoare_for | by intros self [? _]].
  intros x Hx%elem_of_elements. apply mark_mine_sound.
  by eapply known_mines_true.
Qed.

Lemma simple_fact_pass_sound :
  hoare (sound board) simple_fact_pass (λ _, sound board).
Proof.
  apply hoare_self. intros self1 Hsound.
  unfold simple_fact_pass. eapply hoare_bind.
  { apply hoare_gets. intros self ->.
    instantiate (1 := λ n self, J n self). split; [done | reflexivity]. }
  intros n. cbv beta.
  eapply hoare_conseq.
  - apply (hoare_for_knowledge n (sound board) simple_facts).
    intros i Hi. by apply simple_facts_sound.
  - done.
  - by intros ? self [? _].
Qed.

Lemma resolve_pair_sound sentence1 sentence2 :
  true_sentence board sentence1 → true_sentence board sentence2 →
  hoare (sound board) (resolve_pair sentence1 sentence2) (λ _, sound board).
Proof.
  intros Ht1 Ht2. unfold resolve_pair.
  destruct (orient sentence1 sentence2) as [[[subset bigset] diff_count] |] eqn:Ho;
    [| by apply hoare_ret].
  apply orient_Some in Ho as (small & big & Hwho & -> & -> & -> & _ & _).
  assert (true_sentence board small ∧ true_sentence board big) as [Hsmall Hbig].
  { destruct Hwho as [[-> ->] | [-> ->]]; done. }
  destruct (decide (Sentence.cells small ⊆ Sentence.cells big)) as [Hsub |];
    [| by apply hoare_ret].
  pose proof (len_difference board _ _ Hsub) as Hdiff.
  rewrite <- Hsmall, <- Hbig in Hdiff.
  destruct (decide (len (Sentence.cells big ∖ Sentence.cells small) = 1)) as [Hlen |].
  - destruct (decide (Sentence.count big - Sentence.count small = 0)) as [H0 |].
    { apply hoare_pop_and; [done |]. intros x Hx.
      apply hoare_forget_length. intros k. apply mark_safe_sound.
      rewrite Hx, H0 in Hdiff. unfold len in Hdiff.
      assert (size (({[x]} : gset Cell) ∩ board) = 0%nat) as Hsz by lia.
      apply size_empty_inv in Hsz. set_solver. }
    destruct (decide (Sentence.count big - Sentence.count small = 1)) as [H1 |];
      [| by apply hoare_ret].
    apply hoare_pop_and; [done |]. intros x Hx.
    apply hoare_forget_length. intros k. apply mark_mine_sound.
    rewrite Hx, H1 in Hdiff. unfold len in Hdiff.
    assert (size (({[x]} : gset Cell) ∩ board) ≠ 0%nat) as Hsz by lia.
    apply size_non_empty_iff in Hsz. apply set_choose in Hsz as [y Hy]. set_solver.
  - apply hoare_modify. intros self (Hm & Hs & Hk).
    unfold sound; simpl. split_and!; [done | done |].
    apply Forall_app. split; [done |]. apply Forall_singleton.
    unfold true_sentence. simpl. done.
Qed.

Lemma subset_sweep_sound :
  hoare (sound board) subset_sweep (λ _, sound board).
Proof.
  unfold subset_sweep. eapply hoare_bind.
  { apply hoare_gets. intros self H.
    instantiate (1 := λ ks self, sound board self ∧ Forall (true_sentence board) ks).
    split; [done |]. by destruct H as (_ & _ & ?). }
  intros ks. apply (hoare_fact (Forall (true_sentence board) ks)); [by intros ? [_ ?] |].
  intros Hks. eapply hoare_pre.
  - apply (hoare_sweep_loop (sound board) (true_sentence board)).
    + intros. by apply resolve_pair_sound.
    + done.
    + lia.
  - by intros self [? _].
Qed.

(** An honest observation: [cell] holds no mine, and [count] is the
    number of mines among its neighbours. *)
Lemma observed_sound cell self :
  cell ∉ board → sound board self →
  sound board (observed cell (hazard_count board self cell) self).
Proof.
  intros Hc (Hm & Hs & Hk).
  unfold observed, exec, mbind, M_bind, bind.
  rewrite record_move_run, new_sentence_run, append_if_new_run.
  set (self1 := AI _ _ _ _ _ _).
  assert (sound board self1) as H1.
  { unfold sound, self1; simpl. split_and!; [done | set_solver | done]. }
  simpl. case_decide; [done |].
  destruct H1 as (Hm1 & Hs1 & Hk1).
  unfold sound; simpl. split_and!; [done | done |].
  apply Forall_app. split; [done |]. apply Forall_singleton.
  change (hazard_count board self cell) with (hazard_count board self1 cell).
  by apply new_sentence_true.
Qed.

Lemma add_knowledge_sound cell self :
  cell ∉ board → sound board self →
  sound board (exec (add_knowledge cell (hazard_count board self cell)) self).
Proof.
  intros Hc Hsound.
  assert (hoare (sound board) (simple_fact_pass;; subset_sweep) (λ _, sound board))
    as Hloops.
  { eapply hoare_bind; [apply simple_fact_pass_sound |].
    intros ?. apply subset_sweep_sound. }
  destruct (Hloops _ (observed_sound cell self Hc Hsound)) as ([] & self' & Hrun & H').
  unfold exec. rewrite add_knowledge_steps, Hrun. done.
Qed.

End sound.

(** ** The move selectors *)

Lemma first_unmade_run order self :
  (first_unmade order self = (Returned None, self) ∧
   ∀ move, move ∈ order → move ∈ moves_made self) ∨
  (∃ safe_move, safe_move ∈ order ∧ (safe_move ∉ moves_made self) ∧
     first_unmade order self =
     (Returned (Some safe_move),
      set_moves_made ({[safe_move]} ∪ moves_made self) self)).
Proof.
  induction order as [| move order IH]; simpl.
  - left. split; [done |]. intros move Hm. by apply elem_of_nil in Hm.
  - unfold mbind, M_bind, bind, gets. simpl.
    destruct (decide (move ∈ moves_made self)) as [Hin | Hout].
    + destruct IH as [[-> Hall] | (c & Hc & Hnot & ->)].
      * left. split; [done |]. intros x [-> | Hx]%elem_of_cons; auto.
      * right. exists c. split_and!; [by right | done | done].
    + right. exists move. split_and!; [by left | done | done].
Qed.

Lemma make_safe_move_run iter self :
  (make_safe_move iter self = (Returned None, self) ∧
   ∀ move, move ∈ iter (safes self) → move ∈ moves_made self) ∨
  (∃ safe_move, safe_move ∈ iter (safes self) ∧ (safe_move ∉ moves_made self) ∧
     make_safe_move iter self =
     (Returned (Some safe_move),
      set_moves_made ({[safe_move]} ∪ moves_made self) self)).
Proof. apply (first_unmade_run (iter (safes self)) self). Qed.

Lemma make_random_move_eq choice self :
  make_random_move choice self =
  let potential_move := potential_moves self in
  if decide (length potential_move = 0%nat) then (Returned None, self)
  else match potential_move !! (choice `mod` length potential_move)%nat with
       | None => (Raised IndexError, self)
       | Some random_move =>
           (Returned (Some random_move),
            set_moves_made ({[random_move]} ∪ moves_made self) self)
       end.
Proof.
  unfold make_random_move.
  unfold mbind at 1 2, M_bind at 1 2, bind at 1 2, gets at 1 2. simpl.
  unfold mbind at 1, M_bind at 1, bind at 1.
  rewrite (fold_run
    (λ pot_cell potential_move,
       if decide ((pot_cell ∉ mines self) ∧ (pot_cell ∉ moves_made self))
       then potential_move ++ [pot_cell] else potential_move)).
  2:{ intros x acc. unfold mbind, M_bind, bind, gets. simpl.
      destruct (decide ((x ∉ mines self) ∧ (x ∉ moves_made self))) as [[H1 H2] | Hno].
      - by rewrite !bool_decide_eq_true_2.
      - destruct (bool_decide (x ∉ mines self)) eqn:E1;
        destruct (bool_decide (x ∉ moves_made self)) eqn:E2; simpl; try done.
        apply bool_decide_eq_true_1 in E1, E2. tauto. }
  assert (∀ l acc,
            foldl (λ acc x, if decide ((x ∉ mines self) ∧ (x ∉ moves_made self))
                            then acc ++ [x] else acc) acc l
            = acc ++ filter (λ x, (x ∉ mines self) ∧ (x ∉ moves_made self)) l) as Hfold.
  { induction l as [| x l IHl]; intros acc; simpl.
    - by rewrite app_nil_r.
    - rewrite IHl, filter_cons. case_decide; [| done]. by rewrite <- app_assoc. }
  rewrite Hfold. simpl. fold (potential_moves self).
  destruct (decide (length (potential_moves self) = 0%nat)) as [H0 | Hpos]; [done |].
  by destruct (potential_moves self !! _).
Qed.

Lemma make_random_move_run choice self :
  (potential_moves self = [] ∧
   make_random_move choice self = (Returned None, self)) ∨
  (∃ random_move,
     potential_moves self !! (choice `mod` length (potential_moves self))%nat
       = Some random_move ∧
     make_random_move choice self =
     (Returned (Some random_move),
      set_moves_made ({[random_move]} ∪ moves_made self) self)).
Proof.
  rewrite make_random_move_eq. cbv zeta.
  destruct (decide (length (potential_moves self) = 0%nat)) as [H0 | Hpos].
  - left. split; [| done]. by apply length_zero_iff_nil.
  - right.
    assert (choice `mod` length (potential_moves self) < length (potential_moves self))%nat
      as Hlt by (apply Nat.mod_upper_bound; done).
    destruct (lookup_lt_is_Some_2 _ _ Hlt) as [c Hc].
    exists c. split; [done |]. by rewrite Hc.
Qed.

Lemma elem_of_potential_moves self x :
  x ∈ potential_moves self → (x ∉ mines self) ∧ (x ∉ moves_made self).
Proof. unfold potential_moves. rewrite list_elem_of_filter. tauto. Qed.

(** ** The claims about single calls *)

(** C10: [neighboring_cells] only reads the knowledge base.  The call
    returns and leaves the whole state ([moves_made], [mines], [safes],
    [knowledge], [height], [width]) as it was; a second call on the same
    state returns the same pair; and the sentence that [add_knowledge]
    builds from the first component of one call and the second component
    of another is the one built from a single call. *)
Theorem neighboring_cells_pure cell self :
  ∃ r, neighboring_cells cell self = (Returned r, self) ∧
       (r1 ← neighboring_cells cell; r2 ← neighboring_cells cell; mret (r1, r2)) self
         = (Returned (r, r), self) ∧
       ∀ count, new_sentence cell count self
                = (Returned (Sentence.Sentence r.1 (count - r.2)), self).
Proof.
  exists (scan self cell). split_and!.
  - apply neighboring_cells_run.
  - unfold mbind, M_bind, bind. by rewrite !neighboring_cells_run.
  - intros count. apply new_sentence_run.
Qed.

(** C5: the sentence that [add_knowledge cell count] builds, after it has
    recorded the move, holds exactly the neighbours of [cell] on the grid
    that are neither known mines nor known safes, and its count is
    [count] minus the number of neighbours that are known mines. *)
Theorem new_sentence_partition cell count self :
  ∃ sentence,
    outcome (record_move cell;; new_sentence cell count) self = Returned sentence ∧
    (∀ x, x ∈ Sentence.cells sentence ↔
          grid_neighbor self cell x ∧ (x ∉ mines self) ∧ (x ∉ safes self)) ∧
    Sentence.count sentence
      = count - len (filter (grid_neighbor self cell) (mines self)).
Proof.
  unfold outcome, mbind, M_bind, bind.
  rewrite record_move_run, new_sentence_run. simpl.
  set (self1 := AI _ _ _ _ _ _).
  eexists. split; [reflexivity |]. simpl. split.
  - intros x. rewrite scan_neighbors.
    change (grid_neighbor self1 cell x) with (grid_neighbor self cell x).
    unfold self1; simpl. split.
    + intros (Hn & Hm & Hs). split_and!; [done | done | set_solver].
    + intros (Hn & Hm & Hs). split_and!; [done | done |].
      destruct Hn as (Hne & _). set_solver.
  - rewrite scan_mines. done.
Qed.

(** C7: across any sequence of [add_knowledge] calls the sets [mines]
    and [safes] keep all their members. *)
Theorem mines_safes_monotone calls self :
  mines self ⊆ mines (ingest_all calls self) ∧
  safes self ⊆ safes (ingest_all calls self).
Proof.
  revert self. induction calls as [| [cell count] calls IH]; intros self; simpl.
  - done.
  - destruct (hoare_exec _ _ _ self (add_knowledge_grows cell count self) eq_refl)
      as (_ & _ & (_ & _ & _ & Hm & Hs) & _).
    destruct (IH (exec (add_knowledge cell count) self)) as [Hm' Hs'].
    split; set_solver.
Qed.

(** C9: every public operation keeps the members of [moves_made];
    [add_knowledge] adds its cell, and a selector adds the cell it
    returns and nothing else. *)
Theorem moves_made_monotone self :
  (∀ cell count,
     moves_made self ⊆ moves_made (exec (add_knowledge cell count) self) ∧
     cell ∈ moves_made (exec (add_knowledge cell count) self)) ∧
  (∀ iter,
     moves_made self ⊆ moves_made (exec (make_safe_move iter) self) ∧
     moves_made (exec (make_safe_move iter) self) =
       match outcome (make_safe_move iter) self with
       | Returned (Some cell) => {[cell]} ∪ moves_made self
       | _ => moves_made self
       end) ∧
  (∀ choice,
     moves_made self ⊆ moves_made (exec (make_random_move choice) self) ∧
     moves_made (exec (make_random_move choice) self) =
       match outcome (make_random_move choice) self with
       | Returned (Some cell) => {[cell]} ∪ moves_made self
       | _ => moves_made self
       end).
Proof.
  split_and!.
  - intros cell count.
    destruct (hoare_exec _ _ _ self (add_knowledge_grows cell count self) eq_refl)
      as (_ & _ & (_ & _ & Hmm & _ & _) & Hin & _).
    done.
  - intros iter. unfold exec, outcome.
    destruct (make_safe_move_run iter self) as [[-> _] | (c & _ & _ & ->)]; simpl.
    + done.
    + split; [set_solver | done].
  - intros choice. unfold exec, outcome.
    destruct (make_random_move_run choice self) as [[_ ->] | (c & _ & ->)]; simpl.
    + done.
    + split; [set_solver | done].
Qed.

(** C8: a cell that a move selector returns was not in [moves_made] when
    the selector was called, whatever the order in which the set of
    safes is visited and whatever the random choice. *)
Theorem selectors_avoid_moves_made self iter choice cell :
  outcome (make_safe_move iter) self = Returned (Some cell) ∨
  outcome (make_random_move choice) self = Returned (Some cell) →
  cell ∉ moves_made self.
Proof.
  unfold outcome. intros [H | H].
  - destruct (make_safe_move_run iter self) as [[Heq _] | (c & _ & Hnot & Heq)];
      rewrite Heq in H; simpl in H; [discriminate |].
    by inversion H; subst.
  - destruct (make_random_move_run choice self) as [[_ Heq] | (c & Hc & Heq)];
      rewrite Heq in H; simpl in H; [discriminate |].
    inversion H; subst.
    apply list_elem_of_lookup_2, elem_of_potential_moves in Hc. tauto.
Qed.



(** ** Marking a whole set: closed forms *)

Lemma mark_safe_all_empty sentence : mark_safe_all ∅ sentence = sentence.
Proof.
  destruct sentence as [X k]. unfold mark_safe_all. simpl. f_equal. set_solver.
Qed.

Lemma mark_mine_all_empty sentence : mark_mine_all ∅ sentence = sentence.
Proof.
  destruct sentence as [X k]. unfold mark_mine_all, len. simpl.
  assert (X ∩ ∅ = (∅ : gset Cell)) as -> by set_solver.
  assert (X ∖ ∅ = X) as -> by set_solver.
  f_equal. rewrite size_empty. lia.
Qed.


Lemma mark_mine_all_resolved L sentence :
  resolved sentence → mark_mine_all L sentence = sentence.
Proof.
  destruct sentence as [X k]. unfold resolved, mark_mine_all, len. simpl. intros ->.
  assert (∅ ∩ L = (∅ : gset Cell)) as -> by set_solver.
  assert (∅ ∖ L = (∅ : gset Cell)) as -> by set_solver.
  f_equal. rewrite size_empty. lia.
Qed.

Lemma mark_safe_all_cons x (l : list Cell) sentence :
  mark_safe_all (list_to_set l) (Sentence.mark_safe x sentence)
  = mark_safe_all (list_to_set (x :: l)) sentence.
Proof.
  destruct sentence as [X k]. unfold mark_safe_all, Sentence.mark_safe. simpl.
  case_decide; simpl; f_equal; set_solver.
Qed.

Lemma mark_mine_all_cons x (l : list Cell) sentence :
  mark_mine_all (list_to_set l) (Sentence.mark_mine x sentence)
  = mark_mine_all (list_to_set (x :: l)) sentence.
Proof.
  destruct sentence as [X k]. unfold mark_mine_all, Sentence.mark_mine. simpl.
  set (L := list_to_set l : gset Cell).
  destruct (decide (x ∈ X)) as [Hin | Hout]; simpl.
  - f_equal; [set_solver |].
    assert (X ∩ ({[x]} ∪ L) = {[x]} ∪ (X ∖ {[x]}) ∩ L) as ->.
    { apply set_eq. intros y. destruct (decide (y = x)); set_solver. }
    unfold len.
    pose proof (size_union (C := gset Cell) {[x]} ((X ∖ {[x]}) ∩ L)) as Hsz.
    rewrite Hsz by set_solver.
    pose proof (size_singleton (C := gset Cell) x) as H1. rewrite H1. lia.
  - f_equal; [set_solver |].
    assert (X ∩ ({[x]} ∪ L) = X ∩ L) as -> by set_solver. done.
Qed.

Lemma for_mark_safe_run (l : list Cell) self :
  for_ l mark_safe self =
  (Returned tt,
   AI (height self) (width self) (moves_made self) (mines self)
      (list_to_set l ∪ safes self)
      (mark_safe_all (list_to_set l) <$> knowledge self)).
Proof.
  revert self. induction l as [| x l IH]; intros self.
  - simpl. unfold mret, M_ret, ret. destruct self as [h w mm ms ss kb]. simpl.
    do 2 f_equal; [set_solver |].
    rewrite <- (list_fmap_id kb) at 1. apply list_fmap_ext.
    intros ? s _. simpl. by rewrite mark_safe_all_empty.
  - cbn [for_]. unfold mbind, M_bind, bind. rewrite mark_safe_run, IH. simpl.
    do 2 f_equal; [set_solver |].
    rewrite <- list_fmap_compose. apply list_fmap_ext.
    intros ? s _. simpl. apply mark_safe_all_cons.
Qed.

Lemma for_mark_mine_run (l : list Cell) self :
  for_ l mark_mine self =
  (Returned tt,
   AI (height self) (width self) (moves_made self)
      (list_to_set l ∪ mines self) (safes self)
      (mark_mine_all (list_to_set l) <$> knowledge self)).
Proof.
  revert self. induction l as [| x l IH]; intros self.
  - simpl. unfold mret, M_ret, ret. destruct self as [h w mm ms ss kb]. simpl.
    do 2 f_equal; [set_solver |].
    rewrite <- (list_fmap_id kb) at 1. apply list_fmap_ext.
    intros ? s _. simpl. by rewrite mark_mine_all_empty.
  - cbn [for_]. unfold mbind, M_bind, bind. rewrite mark_mine_run, IH. simpl.
    do 2 f_equal; [set_solver |].
    rewrite <- list_fmap_compose. apply list_fmap_ext.
    intros ? s _. simpl. apply mark_mine_all_cons.
Qed.

(** The order in which Python visits the set does not matter. *)
Lemma for_mark_safe_perm (l1 l2 : list Cell) self :
  l1 ≡ₚ l2 → for_ l1 mark_safe self = for_ l2 mark_safe self.
Proof.
  intros Hperm. rewrite !for_mark_safe_run.
  assert (list_to_set l1 = (list_to_set l2 : gset Cell)) as ->; [| done].
  apply set_eq. intros x. rewrite !elem_of_list_to_set. by rewrite Hperm.
Qed.

Lemma for_mark_mine_perm (l1 l2 : list Cell) self :
  l1 ≡ₚ l2 → for_ l1 mark_mine self = for_ l2 mark_mine self.
Proof.
  intros Hperm. rewrite !for_mark_mine_run.
  assert (list_to_set l1 = (list_to_set l2 : gset Cell)) as ->; [| done].
  apply set_eq. intros x. rewrite !elem_of_list_to_set. by rewrite Hperm.
Qed.

Lemma bind_run {A B} (m : M A) (f : A → M B) self a self' :
  m self = (Returned a, self') → (m ≫= f) self = f a self'.
Proof. intros H. unfold mbind, M_bind, bind. by rewrite H. Qed.

Lemma sentence_at_run i self sentence :
  knowledge self !! i = Some sentence →
  sentence_at i self = (Returned sentence, self).
Proof.
  intros Hi. unfold sentence_at, mbind, M_bind, bind, gets. simpl. by rewrite Hi.
Qed.

(** one round of step 4, at a position that holds [sentence] *)
Lemma simple_facts_run i self sentence :
  knowledge self !! i = Some sentence →
  let known_safes := Sentence.known_safes sentence in
  let known_mines := Sentence.known_mines (mark_safe_all known_safes sentence) in
  simple_facts i self =
  (Returned tt,
   AI (height self) (width self) (moves_made self)
      (known_mines ∪ mines self) (known_safes ∪ safes self)
      ((mark_mine_all known_mines ∘ mark_safe_all known_safes) <$> knowledge self)).
Proof.
  intros Hi. cbv zeta. unfold simple_facts.
  erewrite bind_run by (by apply sentence_at_run).
  erewrite bind_run by apply for_mark_safe_run.
  erewrite bind_run
    by (apply sentence_at_run; simpl; rewrite list_lookup_fmap, Hi; reflexivity).
  rewrite for_mark_mine_run. simpl.
  rewrite !list_to_set_elements_L.
  by rewrite <- list_fmap_compose.
Qed.

(** ** Saturation *)

Lemma resolved_quiet sentence : resolved sentence → quiet sentence.
Proof.
  unfold resolved, quiet, Sentence.known_safes, Sentence.known_mines.
  intros ->. by repeat case_decide.
Qed.








(** what one round of step 4 does to the sentence it visits *)
Lemma visited_quiet sentence :
  let known_safes := Sentence.known_safes sentence in
  let known_mines := Sentence.known_mines (mark_safe_all known_safes sentence) in
  quiet (mark_mine_all known_mines (mark_safe_all known_safes sentence)).
Proof.
  cbv zeta. unfold Sentence.known_safes.
  destruct (decide (Sentence.count sentence = 0)) as [H0 | H0].
  - assert (resolved (mark_safe_all (Sentence.cells sentence) sentence)) as Hres.
    { unfold resolved, mark_safe_all. simpl. set_solver. }
    rewrite mark_mine_all_resolved by done. by apply resolved_quiet.
  - rewrite !mark_safe_all_empty. unfold Sentence.known_mines at 1.
    destruct (decide (len (Sentence.cells sentence) = Sentence.count sentence)) as [Hl | Hl].
    + apply resolved_quiet. unfold resolved, mark_mine_all. simpl. set_solver.
    + rewrite mark_mine_all_empty.
      unfold quiet, Sentence.known_safes, Sentence.known_mines.
      by repeat case_decide.
Qed.





Lemma played_step board height width self cell count :
  played board height width self → cell ∉ board →
  count = hazard_count board self cell →
  played board height width (exec (add_knowledge cell count) self).
Proof. intros ? ? ->. by constructor. Qed.

Ltac played_trace :=
  unfold ingest_all; simpl;
  repeat (apply played_step; [| compute_done | vm_compute; reflexivity]);
  apply played_init.








(** C6: the code misses the inference.  On a 3 by 8 board with one mine
    at (1,0), six cells are reported with their true counts.  The
    knowledge base then holds {(0,1),(1,0),(1,1)} = 1 at position 1 and
    {(1,0),(1,1)} = 1 at position 5, and none of the three cells is known
    safe or a mine.  The outer loop of step 5 takes every other sentence
    of its list (positions 0, 2, 4, ...), so this pair is never compared:
    after one more call, or two, (0,1) is still not known safe. *)
Theorem subset_pair_at_odd_positions_is_skipped :
  let self := ingest_all
      [((0, 7), 0); ((0, 0), 1); ((2, 7), 0); ((2, 1), 1); ((0, 5), 0); ((2, 0), 1)]
      (init 3 8) in
  played {[(1, 0)]} 3 8 self ∧
  knowledge self !! 1%nat = Some (Sentence.Sentence {[(0, 1); (1, 0); (1, 1)]} 1) ∧
  knowledge self !! 5%nat = Some (Sentence.Sentence {[(1, 0); (1, 1)]} 1) ∧
  {[(0, 1); (1, 0); (1, 1)]} ## mines self ∪ safes self ∧
  hazard_count {[(1, 0)]} self (2, 5) = 0 ∧
  outcome (add_knowledge (2, 5) 0) self = Returned tt ∧
  ((0, 1) ∉ safes (exec (add_knowledge (2, 5) 0) self)) ∧
  (0, 1) ∉ safes (ingest_all [((2, 5), 0); ((1, 7), 0)] self).
Proof.
  cbv zeta. split_and!; try compute_done; [played_trace | by vm_compute..].
Qed.

(** The same two sentences at positions 1 and 2: the pair is compared,
    and (0,1) is marked safe. *)
Lemma subset_pair_at_even_position_is_resolved :
  let self := ingest_all [((2, 1), 1); ((0, 0), 1)] (init 3 8) in
  played {[(1, 0)]} 3 8 self ∧
  knowledge self !! 1%nat = Some (Sentence.Sentence {[(0, 1); (1, 0); (1, 1)]} 1) ∧
  ((0, 1) ∉ safes self) ∧
  hazard_count {[(1, 0)]} self (2, 0) = 1 ∧
  (0, 1) ∈ safes (exec (add_knowledge (2, 0) 1) self).
Proof.
  cbv zeta. split_and!; try compute_done; [played_trace | by vm_compute..].
Qed.

(** C8 at a concrete state: after (0,0) was reported with count 0 on a 3
    by 3 board, the first safe cell that is not a move made is (0,1). *)
Lemma selectors_avoid_moves_made_witness :
  (0, 1) ∉ moves_made (ingest_all [((0, 0), 0)] (init 3 3)).
Proof.
  apply (selectors_avoid_moves_made _ elements 0%nat (0, 1)).
  left. by vm_compute.
Defined.

(** ** The game as oracle *)

Lemma getitem_in_range {A} (l : list A) (i : Z) :
  0 ≤ i → i < Z.of_nat (length l) →
  ∃ x, l !! Z.to_nat i = Some x ∧ getitem l i = Returned x.
Proof.
  intros H0 Hlt. unfold getitem.
  destruct (lookup_lt_is_Some_2 l (Z.to_nat i)) as [x Hx]; [lia |].
  exists x. split; [done |].
  rewrite (decide_False (P := i < 0)) by lia. rewrite decide_True by lia. by rewrite Hx.
Qed.

Lemma is_mine_in_bounds game i j :
  game_wf game →
  0 ≤ i → i < Minesweeper.height game → 0 ≤ j → j < Minesweeper.width game →
  ∃ b, Minesweeper.is_mine (i, j) game = Returned b ∧
       (b = true ↔ (i, j) ∈ Minesweeper.mines game).
Proof.
  intros (Hrows & Hcols & Hmines) Hi0 Hi Hj0 Hj. unfold Minesweeper.is_mine.
  destruct (getitem_in_range (Minesweeper.board game) i) as (row & Hrow & ->); [lia.. |].
  rewrite Forall_forall in Hcols.
  assert (length row = Z.to_nat (Minesweeper.width game)) as Hlen.
  { apply Hcols. by eapply list_elem_of_lookup_2. }
  destruct (getitem_in_range row j) as (b & Hb & Hget); [lia.. |].
  exists b. simpl. split; [done |].
  rewrite Hmines. unfold Minesweeper.is_mine.
  destruct (getitem_in_range (Minesweeper.board game) i) as (row' & Hrow' & ->); [lia.. |].
  simpl. assert (row' = row) as -> by congruence. rewrite Hget.
  split; [intros -> | intros [_ H]; congruence]. split; [lia | done].
Qed.

(** a cell that the game says is no mine is not in its set of mines *)
Lemma is_mine_false game cell :
  game_wf game → Minesweeper.is_mine cell game = Returned false →
  cell ∉ Minesweeper.mines game.
Proof.
  intros (_ & _ & Hmines) Hfalse Hin. destruct cell as [i j].
  apply Hmines in Hin as [_ Htrue]. congruence.
Qed.

Lemma nearby_mines_body_run game self cell i j count :
  game_wf game →
  height self = Minesweeper.height game → width self = Minesweeper.width game →
  Minesweeper.nearby_mines_body cell i j game count =
  Returned (if decide (((i, j) ≠ cell ∧ in_bounds self (i, j))
                       ∧ (i, j) ∈ Minesweeper.mines game)
            then count + 1 else count).
Proof.
  intros Hwf Hh Hw. unfold Minesweeper.nearby_mines_body, in_bounds. simpl.
  rewrite Hh, Hw.
  destruct (decide ((i, j) = cell)) as [-> | Hne].
  { rewrite decide_False; [done | tauto]. }
  destruct (decide ((0 ≤ i ∧ i < Minesweeper.height game)
                    ∧ (0 ≤ j ∧ j < Minesweeper.width game))) as [Hin | Hout].
  - rewrite !bool_decide_eq_true_2 by tauto. simpl.
    destruct (is_mine_in_bounds game i j Hwf) as (b & Hb & Hiff); [lia.. |].
    unfold Minesweeper.is_mine in Hb.
    destruct (getitem (Minesweeper.board game) i) as [row | e]; simpl in *; [| done].
    rewrite Hb. simpl. destruct b.
    + rewrite decide_True; [done |]. split; [done | by apply Hiff].
    + rewrite decide_False; [done |]. intros [_ Hm]. apply Hiff in Hm. done.
  - rewrite decide_False by tauto.
    destruct (bool_decide (0 ≤ i ∧ i < Minesweeper.height game)) eqn:E1;
    destruct (bool_decide (0 ≤ j ∧ j < Minesweeper.width game)) eqn:E2; simpl; try done.
    apply bool_decide_eq_true_1 in E1, E2. tauto.
Qed.

Lemma fold_result_run {A B} (g : A → B → B) (body : A → B → result B) (l : list A) :
  (∀ x acc, body x acc = Returned (g x acc)) →
  ∀ acc, fold_result l body acc = Returned (foldl (λ acc x, g x acc) acc l).
Proof.
  intros Hbody. induction l as [| x l IH]; intros acc; simpl; [done |].
  rewrite Hbody. simpl. apply IH.
Qed.

(** [Minesweeper.nearby_mines] reports the count of the oracle: the
    number of mines of the game among the grid neighbours of the cell. *)
Lemma nearby_mines_hazard_count game self cell :
  game_wf game →
  height self = Minesweeper.height game → width self = Minesweeper.width game →
  Minesweeper.nearby_mines cell game =
  Returned (hazard_count (Minesweeper.mines game) self cell).
Proof.
  intros Hwf Hh Hw. unfold Minesweeper.nearby_mines, hazard_count.
  rewrite <- block_count. unfold block.
  set (Q := λ x : Cell, (x ≠ cell ∧ in_bounds self x) ∧ x ∈ Minesweeper.mines game).
  assert (∀ (l : list Cell) count,
            foldl (λ count x, if decide (Q x) then count + 1 else count) count l
            = count + Z.of_nat (length (filter Q l))) as Hcount.
  { induction l as [| x l IHl]; intros count; simpl; [lia |].
    rewrite IHl, filter_cons. case_decide; simpl; lia. }
  rewrite <- (Z.add_0_l (Z.of_nat _)), <- Hcount, foldl_bind.
  apply (fold_result_run
    (λ i count, foldl (λ count x, if decide (Q x) then count + 1 else count) count
                  (range (cell.2 - 1) (cell.2 + 2) ≫= λ j, [(i, j)]))).
  intros i count. rewrite foldl_bind. simpl.
  apply (fold_result_run (λ j count, if decide (Q (i, j)) then count + 1 else count)).
  intros j count'. by apply nearby_mines_body_run.
Qed.

Lemma played_dims board h w self :
  played board h w self → height self = h ∧ width self = w.
Proof.
  induction 1 as [| self cell _ [IH1 IH2] _ | self iter _ [IH1 IH2] | self choice _ [IH1 IH2]].
  - done.
  - destruct (hoare_exec _ _ _ self
                (add_knowledge_grows cell (hazard_count board self cell) self) eq_refl)
      as (_ & _ & (Hh & Hw & _) & _).
    split; congruence.
  - unfold exec.
    destruct (make_safe_move_run iter self) as [[-> _] | (c & _ & _ & ->)]; done.
  - unfold exec.
    destruct (make_random_move_run choice self) as [[_ ->] | (c & _ & ->)]; done.
Qed.

(** A turn of the game is a turn played by the rules: the cell is one
    that [is_mine] denies, the count is the one [nearby_mines] returns. *)
Lemma played_with_game game self cell count :
  game_wf game →
  played (Minesweeper.mines game) (Minesweeper.height game) (Minesweeper.width game) self →
  Minesweeper.is_mine cell game = Returned false →
  Minesweeper.nearby_mines cell game = Returned count →
  played (Minesweeper.mines game) (Minesweeper.height game) (Minesweeper.width game)
         (exec (add_knowledge cell count) self).
Proof.
  intros Hwf Hplayed Hcell Hcount.
  destruct (played_dims _ _ _ _ Hplayed) as [Hh Hw].
  rewrite (nearby_mines_hazard_count game self cell Hwf Hh Hw) in Hcount.
  inversion Hcount; subst.
  apply played_add_knowledge; [done |]. by eapply is_mine_false.
Qed.

(** * Further properties of the code *)

(** ** The game *)

Lemma getitem_spec {A} (l : list A) (i : Z) :
  getitem l i =
  if decide (- Z.of_nat (length l) ≤ i ∧ i < Z.of_nat (length l)) then
    match l !! Z.to_nat (i `mod` Z.of_nat (length l)) with
    | Some x => Returned x
    | None => Raised IndexError
    end
  else Raised IndexError.
Proof.
  unfold getitem. set (n := Z.of_nat (length l)).
  destruct (decide (i < 0)) as [Hneg | Hpos].
  - destruct (decide (0 ≤ i + n ∧ i + n < n)) as [Hin | Hout].
    + rewrite decide_True by lia.
      replace (i `mod` n) with (i + n); [done |].
      rewrite <- (Z.mod_small (i + n) n) by lia.
      rewrite <- (Z_mod_plus_full i 1 n). f_equal. lia.
    + by rewrite decide_False by lia.
  - destruct (decide (0 ≤ i ∧ i < n)) as [Hin | Hout].
    + rewrite decide_True by lia. by rewrite Z.mod_small by lia.
    + by rewrite decide_False by lia.
Qed.

Lemma foldl_snoc_replicate {A B} (x : A) (l : list B) (acc : list A) :
  foldl (λ acc _, acc ++ [x]) acc l = acc ++ replicate (length l) x.
Proof.
  revert acc. induction l as [| y l IH]; intros acc; simpl.
  - by rewrite app_nil_r.
  - rewrite IH. by rewrite <- app_assoc.
Qed.

Lemma empty_board_replicate height width :
  Minesweeper.empty_board height width
  = replicate (Z.to_nat height) (replicate (Z.to_nat width) false).
Proof.
  unfold Minesweeper.empty_board, range.
  rewrite (foldl_snoc_replicate false (seqZ 0 (width - 0)) []). simpl.
  rewrite (foldl_snoc_replicate _ (seqZ 0 (height - 0)) []). simpl.
  rewrite !length_seqZ. by rewrite !Z.sub_0_r.
Qed.
Lemma field_ok_wf game : field_ok game → game_wf game.
Proof.
  intros (Hrows & Hcols & _ & Hmines). split_and!; [done | done |].
  intros i j. rewrite Hmines. split; intros [Hin H]; (split; [done |]).
  - unfold entry in H.
    destruct (Minesweeper.board game !! Z.to_nat i) as [row |] eqn:Hrow; simpl in H; [| done].
    unfold Minesweeper.is_mine.
    destruct (getitem_in_range (Minesweeper.board game) i) as (row' & Hrow' & ->); [lia.. |].
    assert (row' = row) as -> by congruence. simpl.
    rewrite Forall_forall in Hcols.
    assert (length row = Z.to_nat (Minesweeper.width game)) as Hlen.
    { apply Hcols. by eapply list_elem_of_lookup_2. }
    destruct (getitem_in_range row j) as (b & Hb & ->); [lia.. |]. congruence.
  - unfold Minesweeper.is_mine in H.
    destruct (getitem_in_range (Minesweeper.board game) i) as (row & Hrow & Hget); [lia.. |].
    rewrite Hget in H. simpl in H.
    rewrite Forall_forall in Hcols.
    assert (length row = Z.to_nat (Minesweeper.width game)) as Hlen.
    { apply Hcols. by eapply list_elem_of_lookup_2. }
    destruct (getitem_in_range row j) as (b & Hb & Hget'); [lia.. |].
    rewrite Hget' in H. inversion H; subst.
    unfold entry. rewrite Hrow. simpl. done.
Qed.

Lemma field_ok_empty height width :
  field_ok (Minesweeper.Game height width ∅ (Minesweeper.empty_board height width) ∅).
Proof.
  rewrite empty_board_replicate. unfold field_ok; simpl. split_and!.
  - by rewrite length_replicate.
  - apply Forall_replicate. by rewrite length_replicate.
  - done.
  - intros i j. split; [set_solver |]. intros [_ H]. exfalso.
    unfold entry in H.
    destruct (replicate _ _ !! Z.to_nat i) as [row |] eqn:Hrow; simpl in H; [| done].
    apply lookup_replicate in Hrow as [-> _].
    apply lookup_replicate in H as [? _]. done.
Qed.

Lemma place_mines_ok draws height width mines game game' :
  Minesweeper.height game = height → Minesweeper.width game = width →
  field_ok game →
  Minesweeper.place_mines draws height width mines game = Returned game' →
  field_ok game' ∧ len (Minesweeper.mines game') = mines ∧
  Minesweeper.height game' = height ∧ Minesweeper.width game' = width.
Proof.
  revert game. induction draws as [| [r1 r2] draws IH]; intros game Hh Hw Hok Hrun;
    simpl in Hrun.
  - case_decide as Hlen; [done |]. injection Hrun as <-.
    split_and!; [done | lia | done | done].
  - case_decide as Hlen.
    2:{ injection Hrun as <-. split_and!; [done | lia | done | done]. }
    unfold randrange in Hrun.
    destruct (decide (0 < height)) as [Hhpos |]; simpl in Hrun; [| done].
    destruct (decide (0 < width)) as [Hwpos |]; simpl in Hrun; [| done].
    set (i := Z.of_nat r1 `mod` height) in *.
    set (j := Z.of_nat r2 `mod` width) in *.
    assert (0 ≤ i ∧ i < height) as Hi by (apply Z.mod_pos_bound; lia).
    assert (0 ≤ j ∧ j < width) as Hj by (apply Z.mod_pos_bound; lia).
    pose proof Hok as (Hrows & Hcols & Hfound & Hmines).
    destruct (getitem_in_range (Minesweeper.board game) i) as (row & Hrow & Hget); [lia.. |].
    rewrite Hget in Hrun. simpl in Hrun.
    assert (length row = Z.to_nat width) as Hrowlen.
    { rewrite Forall_forall in Hcols. rewrite <- Hw. apply Hcols.
      by eapply list_elem_of_lookup_2. }
    destruct (getitem_in_range row j) as (b & Hb & Hget'); [lia.. |].
    rewrite Hget' in Hrun. simpl in Hrun.
    destruct b; simpl in Hrun; [by apply (IH game) |].
    unfold setitem in Hrun.
    rewrite (decide_False (P := j < 0)) in Hrun by lia.
    rewrite (decide_True (P := 0 ≤ j ∧ j < Z.of_nat (length row))) in Hrun by lia.
    simpl in Hrun.
    rewrite (decide_False (P := i < 0)) in Hrun by lia.
    rewrite (decide_True
               (P := 0 ≤ i ∧ i < Z.of_nat (length (Minesweeper.board game))))
      in Hrun by lia.
    simpl in Hrun.
    apply IH in Hrun; [done | done | done |].
    unfold field_ok; simpl. split_and!.
    + by rewrite length_insert.
    + apply Forall_insert; [done |]. rewrite length_insert. lia.
    + done.
    + intros i' j'. rewrite elem_of_union, elem_of_singleton, Hmines. simpl.
      rewrite Hh, Hw.
      destruct (decide ((0 ≤ i' ∧ i' < height) ∧ (0 ≤ j' ∧ j' < width))) as [Hin | Hout].
      2:{ split; [intros [Heq | [H _]]; [inversion Heq; subst; tauto | tauto] | tauto]. }
      unfold entry.
      destruct (decide (i' = i)) as [-> | Hne].
      * rewrite list_lookup_insert_eq by lia. simpl.
        destruct (decide (j' = j)) as [-> | Hne'].
        { rewrite list_lookup_insert_eq by lia. intuition. }
        rewrite list_lookup_insert_ne by lia. rewrite Hrow. simpl.
        split; [intros [Heq | H]; [congruence | done] | intros H; by right].
      * rewrite list_lookup_insert_ne by lia.
        split; [intros [Heq | H]; [congruence | done] | intros H; by right].
Qed.

Lemma elem_of_board_cells h w (x : Cell) :
  x ∈ board_cells h w ↔ (0 ≤ x.1 ∧ x.1 < h) ∧ (0 ≤ x.2 ∧ x.2 < w).
Proof.
  unfold board_cells, range. destruct x as [r c]. simpl.
  rewrite list_elem_of_bind. split.
  - intros (row & Hin & Hrow). apply elem_of_seqZ in Hrow.
    apply list_elem_of_bind in Hin as (col & Hx & Hcol).
    apply elem_of_seqZ in Hcol.
    apply list_elem_of_singleton in Hx. inversion Hx; subst. lia.
  - intros Hx. exists r. split; [| apply elem_of_seqZ; lia].
    apply list_elem_of_bind. exists c. split; [apply list_elem_of_singleton; done |].
    apply elem_of_seqZ. lia.
Qed.

Lemma length_bind_const {A B} (f : A → list B) (l : list A) (m : nat) :
  (∀ x, length (f x) = m) → length (l ≫= f) = (length l * m)%nat.
Proof.
  intros Hf. induction l as [| x l IH]; [done |].
  rewrite bind_cons, length_app, IH, Hf. simpl. lia.
Qed.

Lemma length_board_cells height width :
  length (board_cells height width) = (Z.to_nat height * Z.to_nat width)%nat.
Proof.
  unfold board_cells, range.
  rewrite (length_bind_const _ _ (Z.to_nat width)).
  - rewrite length_seqZ. f_equal. lia.
  - intros row. rewrite (length_bind_const _ _ 1%nat); [| done].
    rewrite length_seqZ. lia.
Qed.

Lemma size_list_to_set_le (l : list Cell) :
  (size (list_to_set l : gset Cell) ≤ length l)%nat.
Proof.
  induction l as [| x l IH].
  - by rewrite list_to_set_nil, size_empty.
  - rewrite list_to_set_cons. simpl.
    pose proof (size_union_alt (C := gset Cell) {[x]} (list_to_set l)) as Hsz.
    rewrite Hsz.
    pose proof (size_singleton (C := gset Cell) x) as H1. rewrite H1.
    assert (size (list_to_set l ∖ {[x]} : gset Cell) ≤ size (list_to_set l : gset Cell))%nat
      by (apply subseteq_size; set_solver).
    lia.
Qed.

Lemma init_field_ok height width n_mines draws game :
  Minesweeper.init height width n_mines draws = Returned game →
  field_ok game ∧ len (Minesweeper.mines game) = n_mines ∧
  Minesweeper.height game = height ∧ Minesweeper.width game = width.
Proof.
  intros Hinit. eapply place_mines_ok; [| | | exact Hinit]; [done | done |].
  apply field_ok_empty.
Qed.

Lemma init_returns height width n_mines draws game :
  Minesweeper.init height width n_mines draws = Returned game →
  game_wf game ∧
  Minesweeper.height game = height ∧ Minesweeper.width game = width ∧
  len (Minesweeper.mines game) = n_mines ∧
  Minesweeper.mines_found game = ∅ ∧
  0 ≤ n_mines ∧ n_mines ≤ Z.max 0 height * Z.max 0 width.
Proof.
  intros Hinit.
  destruct (init_field_ok _ _ _ _ _ Hinit) as (Hok & Hlen & Hh & Hw).
  pose proof Hok as (_ & _ & Hfound & Hmines).
  split_and!; [by apply field_ok_wf | done | done | done | done | unfold len in Hlen; lia |].
  assert (Minesweeper.mines game ⊆ list_to_set (board_cells height width)) as Hsub.
  { intros [i j] Hin. apply Hmines in Hin as [Hin _].
    apply elem_of_list_to_set, elem_of_board_cells. simpl. by rewrite <- Hh, <- Hw. }
  apply subseteq_size in Hsub.
  pose proof (size_list_to_set_le (board_cells height width)) as Hle.
  rewrite length_board_cells in Hle.
  unfold len in Hlen. nia.
Qed.

Lemma corner_game_init :
  Minesweeper.init 3 3 1 [(2%nat, 2%nat)] = Returned corner_game.
Proof. by vm_compute. Qed.

Lemma corner_game_wf : game_wf corner_game.
Proof. by destruct (init_returns _ _ _ _ _ corner_game_init) as [? _]. Qed.

(** X1: when [Minesweeper(height, width, mines)] returns, the field has
    [height] rows of [width] entries, [mines] holds exactly the
    positions of the entries that are [True], all on the board, there
    are exactly [mines] of them, and no mine is found yet.  The number of
    mines asked for is then between 0 and the number of cells: for any
    other number the constructor does not return, whatever the random
    numbers. *)
Theorem init_establishes height width n_mines draws game :
  Minesweeper.init height width n_mines draws = Returned game →
  game_wf game ∧
  Minesweeper.height game = height ∧ Minesweeper.width game = width ∧
  len (Minesweeper.mines game) = n_mines ∧
  Minesweeper.mines_found game = ∅ ∧
  0 ≤ n_mines ∧ n_mines ≤ Z.max 0 height * Z.max 0 width.
Proof. apply init_returns. Qed.

Lemma init_establishes_witness :
  game_wf corner_game ∧
  Minesweeper.height corner_game = 3 ∧ Minesweeper.width corner_game = 3 ∧
  len (Minesweeper.mines corner_game) = 1 ∧
  Minesweeper.mines_found corner_game = ∅ ∧
  0 ≤ 1 ∧ 1 ≤ Z.max 0 3 * Z.max 0 3.
Proof.
  apply (init_establishes 3 3 1 [(2%nat, 2%nat)] corner_game). by vm_compute.
Defined.



(** X3: [is_mine] on a well-formed game.  An index from [-height] to
    [height - 1] (from [-width] to [width - 1]) is accepted, a negative
    one counting from the end as Python lists do; the answer is whether
    the cell so addressed is in [mines].  Any other index raises
    [IndexError]. *)
Theorem is_mine_spec game i j :
  game_wf game →
  Minesweeper.is_mine (i, j) game =
  if decide ((- Minesweeper.height game ≤ i ∧ i < Minesweeper.height game)
             ∧ (- Minesweeper.width game ≤ j ∧ j < Minesweeper.width game))
  then Returned (bool_decide ((i `mod` Minesweeper.height game,
                               j `mod` Minesweeper.width game)
                              ∈ Minesweeper.mines game))
  else Raised IndexError.
Proof.
  intros Hwf. pose proof Hwf as (Hrows & Hcols & Hmines).
  set (h := Minesweeper.height game) in *. set (w := Minesweeper.width game) in *.
  destruct (decide (- h ≤ i ∧ i < h)) as [Hi | Hi].
  - assert (0 < h) as Hh by lia.
    assert (0 ≤ i `mod` h ∧ i `mod` h < h) as Him by (apply Z.mod_pos_bound; lia).
    destruct (decide (- w ≤ j ∧ j < w)) as [Hj | Hj].
    + rewrite decide_True by done.
      assert (0 < w) as Hw by lia.
      assert (0 ≤ j `mod` w ∧ j `mod` w < w) as Hjm by (apply Z.mod_pos_bound; lia).
      destruct (is_mine_in_bounds game (i `mod` h) (j `mod` w) Hwf)
        as (b & Hb & Hiff); [fold h; lia | fold h; lia | fold w; lia | fold w; lia |].
      assert (Minesweeper.is_mine (i, j) game
              = Minesweeper.is_mine (i `mod` h, j `mod` w) game) as ->.
      { unfold Minesweeper.is_mine. rewrite !getitem_spec.
        rewrite Hrows. rewrite Z2Nat.id by lia. fold h.
        rewrite decide_True by lia. rewrite decide_True by lia.
        rewrite Z.mod_mod by lia.
        destruct (Minesweeper.board game !! Z.to_nat (i `mod` h)) as [row |] eqn:Hrow;
          simpl; [| done].
        rewrite Forall_forall in Hcols.
        assert (length row = Z.to_nat w) as Hlen.
        { apply Hcols. by eapply list_elem_of_lookup_2. }
        rewrite !getitem_spec. rewrite Hlen, Z2Nat.id by lia.
        rewrite decide_True by lia. rewrite decide_True by lia.
        by rewrite Z.mod_mod by lia. }
      rewrite Hb. f_equal. destruct b.
      * symmetry. apply bool_decide_eq_true_2. by apply Hiff.
      * symmetry. apply bool_decide_eq_false_2. intros Hin. apply Hiff in Hin. done.
    + rewrite decide_False by tauto.
      unfold Minesweeper.is_mine. rewrite getitem_spec.
      rewrite Hrows. rewrite Z2Nat.id by lia. fold h.
      rewrite decide_True by lia.
      destruct (Minesweeper.board game !! Z.to_nat (i `mod` h)) as [row |] eqn:Hrow;
        simpl; [| done].
      rewrite Forall_forall in Hcols.
      assert (length row = Z.to_nat w) as Hlen.
      { apply Hcols. by eapply list_elem_of_lookup_2. }
      rewrite getitem_spec. rewrite Hlen.
      destruct (decide (0 ≤ w)).
      * rewrite Z2Nat.id by lia. by rewrite decide_False by lia.
      * rewrite Z2Nat.nonpos by lia. by rewrite decide_False by lia.
  - rewrite decide_False by tauto.
    unfold Minesweeper.is_mine. rewrite getitem_spec. rewrite Hrows.
    destruct (decide (0 ≤ h)).
    + rewrite Z2Nat.id by lia. fold h. by rewrite decide_False by lia.
    + rewrite Z2Nat.nonpos by lia. by rewrite decide_False by lia.
Qed.

Lemma is_mine_spec_witness :
  Minesweeper.is_mine (-1, 2) corner_game =
  if decide ((- Minesweeper.height corner_game ≤ -1 ∧ -1 < Minesweeper.height corner_game)
             ∧ (- Minesweeper.width corner_game ≤ 2 ∧ 2 < Minesweeper.width corner_game))
  then Returned (bool_decide (((-1) `mod` Minesweeper.height corner_game,
                               2 `mod` Minesweeper.width corner_game)
                              ∈ Minesweeper.mines corner_game))
  else Raised IndexError.
Proof. apply is_mine_spec. apply corner_game_wf. Defined.

Lemma length_block cell : length (block cell) = 9%nat.
Proof.
  unfold block, range.
  replace (cell.1 + 2 - (cell.1 - 1)) with 3 by lia.
  replace (cell.2 + 2 - (cell.2 - 1)) with 3 by lia.
  reflexivity.
Qed.

Lemma length_filter_split {A} (P Q R : A → Prop)
    `{!∀ x, Decision (P x)} `{!∀ x, Decision (Q x)} `{!∀ x, Decision (R x)}
    (l : list A) :
  (∀ x, P x → Q x → False) → (∀ x, P x → R x) → (∀ x, Q x → R x) →
  (length (filter P l) + length (filter Q l) ≤ length (filter R l))%nat.
Proof.
  intros Hdisj HP HQ. induction l as [| x l IH]; [done |].
  rewrite !filter_cons.
  destruct (decide (P x)) as [Hp | Hp], (decide (Q x)) as [Hq | Hq],
           (decide (R x)) as [Hr | Hr]; simpl; try lia;
    solve [exfalso; eauto].
Qed.

Lemma length_filter_missing {A} (P : A → Prop) `{!∀ x, Decision (P x)} (l : list A) x :
  x ∈ l → ¬ P x → (length (filter P l) < length l)%nat.
Proof.
  intros Hx Hnp. induction l as [| y l IH]; [by apply elem_of_nil in Hx |].
  rewrite filter_cons. pose proof (length_filter P l) as Hle.
  apply elem_of_cons in Hx as [<- | Hx].
  - rewrite decide_False by done. simpl. lia.
  - specialize (IH Hx). case_decide; simpl; lia.
Qed.

Lemma cell_in_block cell : cell ∈ block cell.
Proof. apply elem_of_block. lia. Qed.

(** X4: [nearby_mines] on a well-formed game returns, for every cell
    (on the board or not), the number of mines among the cells next to
    it that lie on the board; it raises nothing, and the number is
    between 0 and 8. *)
Theorem nearby_mines_spec game cell :
  game_wf game →
  ∃ count,
    Minesweeper.nearby_mines cell game = Returned count ∧
    count = len (filter (grid_neighbor
                           (init (Minesweeper.height game) (Minesweeper.width game)) cell)
                        (Minesweeper.mines game)) ∧
    0 ≤ count ∧ count ≤ 8.
Proof.
  intros Hwf.
  set (self := init (Minesweeper.height game) (Minesweeper.width game)).
  exists (hazard_count (Minesweeper.mines game) self cell).
  split; [by apply nearby_mines_hazard_count |]. split; [done |].
  unfold hazard_count. rewrite <- block_count.
  pose proof (length_filter_split
    (λ x : Cell, (x ≠ cell ∧ in_bounds self x) ∧ x ∈ Minesweeper.mines game)
    (λ _ : Cell, False) (λ x : Cell, x ≠ cell) (block cell)) as Hsplit.
  pose proof (length_filter_missing (λ x : Cell, x ≠ cell) (block cell) cell
                (cell_in_block cell)) as Hmiss.
  rewrite length_block in Hmiss.
  assert (length (filter (λ x : Cell, x ≠ cell) (block cell)) < 9)%nat
    by (apply Hmiss; tauto).
  assert (length (filter (λ x : Cell, (x ≠ cell ∧ in_bounds self x)
                            ∧ x ∈ Minesweeper.mines game) (block cell))
          + length (filter (λ _ : Cell, False) (block cell))
          ≤ length (filter (λ x : Cell, x ≠ cell) (block cell)))%nat
    by (apply Hsplit; tauto).
  lia.
Qed.

Lemma nearby_mines_spec_witness :
  ∃ count,
    Minesweeper.nearby_mines (1, 1) corner_game = Returned count ∧
    count = len (filter (grid_neighbor
                           (init (Minesweeper.height corner_game)
                                 (Minesweeper.width corner_game)) (1, 1))
                        (Minesweeper.mines corner_game)) ∧
    0 ≤ count ∧ count ≤ 8.
Proof. apply nearby_mines_spec. apply corner_game_wf. Defined.

(** ** neighboring_cells *)

(** X14: [neighboring_cells] never counts more than the eight cells
    around the cell: the undetermined neighbours and the mines seen are
    together at most 8; the cell itself, the known mines and the known
    safes are not among the neighbours. *)
Theorem neighboring_cells_at_most_eight cell self :
  ∃ neighbors mines_seen,
    neighboring_cells cell self = (Returned (neighbors, mines_seen), self) ∧
    0 ≤ mines_seen ∧ len neighbors + mines_seen ≤ 8 ∧
    cell ∉ neighbors ∧ neighbors ## mines self ∧ neighbors ## safes self.
Proof.
  exists (scan self cell).1, (scan self cell).2.
  split.
  { rewrite neighboring_cells_run. fold (scan self cell). by destruct (scan self cell). }
  assert (∀ x, x ∈ (scan self cell).1 →
            x ≠ cell ∧ (x ∉ mines self) ∧ (x ∉ safes self)) as Hn.
  { intros x Hx%scan_neighbors. destruct Hx as ((Hne & _) & Hm & Hs). done. }
  split_and!.
  - unfold scan. rewrite scan_block_mines. simpl. lia.
  - unfold scan at 2. rewrite scan_block_mines. simpl.
    unfold scan, len. rewrite scan_block_neighbors. simpl.
    assert (∅ ∪ list_to_set
              (filter (λ x : Cell, (x ≠ cell ∧ in_bounds self x)
                                   ∧ ((x ∉ mines self) ∧ (x ∉ safes self))) (block cell))
            = (list_to_set
              (filter (λ x : Cell, (x ≠ cell ∧ in_bounds self x)
                                   ∧ ((x ∉ mines self) ∧ (x ∉ safes self))) (block cell))
               : gset Cell)) as -> by set_solver.
    rewrite size_list_to_set by apply NoDup_filter, NoDup_block.
    pose proof (length_filter_split
      (λ x : Cell, (x ≠ cell ∧ in_bounds self x) ∧ (x ∉ mines self) ∧ (x ∉ safes self))
      (λ x : Cell, (x ≠ cell ∧ in_bounds self x) ∧ x ∈ mines self)
      (λ x : Cell, x ≠ cell) (block cell)) as Hsplit.
    pose proof (length_filter_missing (λ x : Cell, x ≠ cell) (block cell) cell
                  (cell_in_block cell)) as Hmiss.
    rewrite length_block in Hmiss.
    assert (length (filter (λ x : Cell, x ≠ cell) (block cell)) < 9)%nat
      by (apply Hmiss; tauto).
    assert (length (filter (λ x : Cell, (x ≠ cell ∧ in_bounds self x)
                              ∧ (x ∉ mines self) ∧ (x ∉ safes self)) (block cell))
            + length (filter (λ x : Cell, (x ≠ cell ∧ in_bounds self x) ∧ x ∈ mines self)
                        (block cell))
            ≤ length (filter (λ x : Cell, x ≠ cell) (block cell)))%nat
      by (apply Hsplit; tauto).
    lia.
  - intros Hc. by destruct (Hn _ Hc).
  - intros x Hx Hm. by destruct (Hn _ Hx) as (_ & ? & _).
  - intros x Hx Hs. by destruct (Hn _ Hx) as (_ & _ & ?).
Qed.

(** ** The marks *)

(** X5: marking a collection of cells safe, or as mines, gives the same
    state in whatever order the cells are taken and however often each
    one occurs: the loops of [add_knowledge] over a Python set do not
    depend on the order in which the set is iterated. *)
Theorem marks_in_any_order (l1 l2 : list Cell) self :
  (∀ x, x ∈ l1 ↔ x ∈ l2) →
  for_ l1 mark_safe self = for_ l2 mark_safe self ∧
  for_ l1 mark_mine self = for_ l2 mark_mine self.
Proof.
  intros Hsame. rewrite !for_mark_safe_run, !for_mark_mine_run.
  assert (list_to_set l1 = (list_to_set l2 : gset Cell)) as ->; [| done].
  apply set_eq. intros x. by rewrite !elem_of_list_to_set.
Qed.

Lemma marks_in_any_order_witness :
  for_ [(0, 1); (1, 0)] mark_safe (ingest_all [((0, 0), 1)] (init 3 3))
  = for_ [(1, 0); (0, 1); (1, 0)] mark_safe (ingest_all [((0, 0), 1)] (init 3 3)) ∧
  for_ [(0, 1); (1, 0)] mark_mine (ingest_all [((0, 0), 1)] (init 3 3))
  = for_ [(1, 0); (0, 1); (1, 0)] mark_mine (ingest_all [((0, 0), 1)] (init 3 3)).
Proof.
  apply marks_in_any_order. intros x.
  rewrite !elem_of_cons, !elem_of_nil. tauto.
Defined.

(** ** Step 4 *)

Lemma visited_value sentence :
  Sentence.count sentence = 0 ∨
  len (Sentence.cells sentence) = Sentence.count sentence →
  mark_mine_all
    (Sentence.known_mines (mark_safe_all (Sentence.known_safes sentence) sentence))
    (mark_safe_all (Sentence.known_safes sentence) sentence)
  = Sentence.Sentence ∅ 0.
Proof.
  intros H. destruct (decide (Sentence.count sentence = 0)) as [H0 | H0].
  - assert (mark_safe_all (Sentence.known_safes sentence) sentence
            = Sentence.Sentence ∅ 0) as ->.
    { unfold Sentence.known_safes. rewrite decide_True by done.
      unfold mark_safe_all. rewrite H0. f_equal. set_solver. }
    assert (Sentence.known_mines (Sentence.Sentence ∅ 0) = ∅) as ->.
    { unfold Sentence.known_mines. by case_decide. }
    apply mark_mine_all_empty.
  - destruct H as [H | H]; [done |].
    assert (Sentence.known_safes sentence = ∅) as ->.
    { unfold Sentence.known_safes. by rewrite decide_False. }
    rewrite mark_safe_all_empty.
    unfold Sentence.known_mines. rewrite decide_True by done.
    unfold mark_mine_all.
    assert (Sentence.cells sentence ∩ Sentence.cells sentence = Sentence.cells sentence)
      as -> by set_solver.
    f_equal; [set_solver | lia].
Qed.

(** X6: one round of step 4 exhausts the sentence it visits.  The round
    returns; afterwards the sentence at that position yields neither
    known safes nor known mines; the cells it yielded are in [safes],
    respectively in [mines]; and when its count was 0 or equal to the
    number of its cells, the sentence is left as [{} = 0]. *)
Theorem simple_facts_exhausts i self sentence :
  knowledge self !! i = Some sentence →
  ∃ sentence',
    outcome (simple_facts i) self = Returned tt ∧
    knowledge (exec (simple_facts i) self) !! i = Some sentence' ∧
    Sentence.known_safes sentence' = ∅ ∧ Sentence.known_mines sentence' = ∅ ∧
    Sentence.known_safes sentence ⊆ safes (exec (simple_facts i) self) ∧
    (Sentence.count sentence ≠ 0 →
     Sentence.known_mines sentence ⊆ mines (exec (simple_facts i) self)) ∧
    (Sentence.count sentence = 0 ∨
     len (Sentence.cells sentence) = Sentence.count sentence →
     sentence' = Sentence.Sentence ∅ 0).
Proof.
  intros Hi. unfold outcome, exec.
  rewrite (simple_facts_run i self sentence Hi). cbv zeta. simpl.
  eexists. split; [done |].
  split; [rewrite list_lookup_fmap, Hi; reflexivity |].
  pose proof (visited_quiet sentence) as [Hq1 Hq2]. cbv zeta in Hq1, Hq2.
  split_and!; [done | done | set_solver | | apply visited_value].
  intros Hne. unfold Sentence.known_safes. rewrite decide_False by done.
  rewrite mark_safe_all_empty. set_solver.
Qed.

Lemma simple_facts_exhausts_witness :
  ∃ sentence',
    outcome (simple_facts 0) (AI 3 3 ∅ ∅ ∅ [Sentence.Sentence {[(0, 1); (1, 1)]} 2])
      = Returned tt ∧
    knowledge (exec (simple_facts 0)
                 (AI 3 3 ∅ ∅ ∅ [Sentence.Sentence {[(0, 1); (1, 1)]} 2])) !! 0%nat
      = Some sentence' ∧
    Sentence.known_safes sentence' = ∅ ∧ Sentence.known_mines sentence' = ∅ ∧
    Sentence.known_safes (Sentence.Sentence {[(0, 1); (1, 1)]} 2)
      ⊆ safes (exec (simple_facts 0)
                 (AI 3 3 ∅ ∅ ∅ [Sentence.Sentence {[(0, 1); (1, 1)]} 2])) ∧
    (Sentence.count (Sentence.Sentence {[(0, 1); (1, 1)]} 2) ≠ 0 →
     Sentence.known_mines (Sentence.Sentence {[(0, 1); (1, 1)]} 2)
       ⊆ mines (exec (simple_facts 0)
                  (AI 3 3 ∅ ∅ ∅ [Sentence.Sentence {[(0, 1); (1, 1)]} 2]))) ∧
    (Sentence.count (Sentence.Sentence {[(0, 1); (1, 1)]} 2) = 0 ∨
     len (Sentence.cells (Sentence.Sentence {[(0, 1); (1, 1)]} 2))
       = Sentence.count (Sentence.Sentence {[(0, 1); (1, 1)]} 2) →
     sentence' = Sentence.Sentence ∅ 0).
Proof. apply simple_facts_exhausts. reflexivity. Defined.

(** ** Step 5: a pair of sentences *)

Lemma orient_subset small big :
  Sentence.cells small ≠ ∅ → Sentence.cells small ⊂ Sentence.cells big →
  orient small big =
  Some (Sentence.cells small, Sentence.cells big,
        Sentence.count big - Sentence.count small).
Proof.
  intros Hne Hsub. unfold orient, len.
  pose proof (subset_size _ _ Hsub) as Hlt.
  assert (size (Sentence.cells small) ≠ 0%nat) as Hpos.
  { intros H0. apply Hne. by apply leibniz_equiv, size_empty_inv. }
  rewrite (bool_decide_eq_false_2 (_ < _)) by lia. simpl.
  rewrite (bool_decide_eq_false_2 (_ = _)) by lia.
  rewrite (bool_decide_eq_true_2 (_ > _)) by lia.
  rewrite !bool_decide_eq_true_2 by lia. done.
Qed.

Lemma orient_sym sentence1 sentence2 :
  orient sentence1 sentence2 = orient sentence2 sentence1.
Proof.
  unfold orient.
  repeat match goal with
         | |- context [bool_decide ?P] => destruct (bool_decide_reflect P)
         end; simpl; try done; lia.
Qed.

(** X7: the subset rule.  For a sentence [small] with at least one cell
    whose cells are a proper subset of those of [big], the pair is
    treated the same in either order.  When one cell [x] is left over it
    is marked safe if the counts are equal, marked as a mine if they
    differ by one, and nothing happens for any other difference; when
    more cells are left over the difference sentence is appended to the
    list, present there or not. *)
Theorem resolve_pair_subset_rule small big self :
  Sentence.cells small ≠ ∅ → Sentence.cells small ⊂ Sentence.cells big →
  let diff_set := Sentence.cells big ∖ Sentence.cells small in
  let diff_count := Sentence.count big - Sentence.count small in
  resolve_pair big small self = resolve_pair small big self ∧
  (∀ x, diff_set = {[x]} →
     resolve_pair small big self =
       if decide (diff_count = 0) then mark_safe x self
       else if decide (diff_count = 1) then mark_mine x self
       else (Returned tt, self)) ∧
  (len diff_set ≠ 1 →
     resolve_pair small big self =
       (Returned tt,
        AI (height self) (width self) (moves_made self) (mines self) (safes self)
           (knowledge self ++ [Sentence.Sentence diff_set diff_count]))).
Proof.
  intros Hne Hsub. cbv zeta. split; [| split].
  - unfold resolve_pair. by rewrite orient_sym.
  - intros x Hx. unfold resolve_pair. rewrite orient_subset by done.
    rewrite decide_True by (by destruct Hsub).
    rewrite Hx. unfold len. rewrite size_singleton. rewrite decide_True by done.
    unfold pop_and, set_pop. rewrite elements_singleton. simpl.
    by repeat case_decide.
  - intros Hlen. unfold resolve_pair. rewrite orient_subset by done.
    rewrite decide_True by (by destruct Hsub).
    by rewrite decide_False by done.
Qed.

Lemma resolve_pair_subset_rule_witness :
  let small := Sentence.Sentence {[(0, 0); (0, 1)]} 1 in
  let big := Sentence.Sentence {[(0, 0); (0, 1); (0, 2)]} 1 in
  let self := init 3 3 in
  let diff_set := Sentence.cells big ∖ Sentence.cells small in
  let diff_count := Sentence.count big - Sentence.count small in
  resolve_pair big small self = resolve_pair small big self ∧
  (∀ x, diff_set = {[x]} →
     resolve_pair small big self =
       if decide (diff_count = 0) then mark_safe x self
       else if decide (diff_count = 1) then mark_mine x self
       else (Returned tt, self)) ∧
  (len diff_set ≠ 1 →
     resolve_pair small big self =
       (Returned tt,
        AI (height self) (width self) (moves_made self) (mines self) (safes self)
           (knowledge self ++ [Sentence.Sentence diff_set diff_count]))).
Proof.
  apply (resolve_pair_subset_rule (Sentence.Sentence {[(0, 0); (0, 1)]} 1)
           (Sentence.Sentence {[(0, 0); (0, 1); (0, 2)]} 1) (init 3 3)).
  - compute_done.
  - split; compute_done.
Defined.

(** X8: no inference without containment.  A pair of sentences leaves
    the state as it is when the two cell sets have the same size, when
    one of them is empty, or when neither contains the other. *)
Theorem resolve_pair_without_containment sentence1 sentence2 self :
  len (Sentence.cells sentence1) = len (Sentence.cells sentence2) ∨
  Sentence.cells sentence1 = ∅ ∨ Sentence.cells sentence2 = ∅ ∨
  (Sentence.cells sentence1 ⊈ Sentence.cells sentence2 ∧
   Sentence.cells sentence2 ⊈ Sentence.cells sentence1) →
  resolve_pair sentence1 sentence2 self = (Returned tt, self).
Proof.
  intros H. unfold resolve_pair.
  destruct (orient sentence1 sentence2) as [[[subset bigset] d] |] eqn:Ho; [| done].
  apply orient_Some in Ho as (small & big & Hwho & -> & -> & _ & Hne & Hlt).
  destruct (decide (Sentence.cells small ⊆ Sentence.cells big)) as [Hsub |]; [| done].
  exfalso. unfold len in *.
  destruct Hwho as [[-> ->] | [-> ->]];
    destruct H as [H | [H | [H | [H1 H2]]]];
    try (rewrite H, ?size_empty in *; lia); try lia; try tauto.
Qed.

Lemma resolve_pair_without_containment_witness :
  resolve_pair (Sentence.Sentence {[(0, 0); (0, 1)]} 1)
               (Sentence.Sentence {[(0, 1); (0, 2); (1, 2)]} 1) (init 3 3)
  = (Returned tt, init 3 3).
Proof.
  apply resolve_pair_without_containment.
  right. right. right. split; compute_done.
Defined.

(** ** add_knowledge: what happens to the sentences held *)

(** ** Properties that the marks and an appended sentence keep *)

Section stable.
Variable I : MinesweeperAI.t → Prop.
Hypothesis I_mark_safe : ∀ self cell, I self →
  I (AI (height self) (width self) (moves_made self) (mines self)
        ({[cell]} ∪ safes self) (Sentence.mark_safe cell <$> knowledge self)).
Hypothesis I_mark_mine : ∀ self cell, I self →
  I (AI (height self) (width self) (moves_made self) ({[cell]} ∪ mines self)
        (safes self) (Sentence.mark_mine cell <$> knowledge self)).
Hypothesis I_append : ∀ self sentence, I self →
  I (set_knowledge (knowledge self ++ [sentence]) self).

Let J (n : nat) (self : MinesweeperAI.t) : Prop :=
  I self ∧ length (knowledge self) = n.

Lemma mark_safe_stable n cell : hoare (J n) (mark_safe cell) (λ _, J n).
Proof.
  apply hoare_mark_safe. intros self [HI Hlen].
  split; [by apply I_mark_safe | by simpl; rewrite length_fmap].
Qed.

Lemma mark_mine_stable n cell : hoare (J n) (mark_mine cell) (λ _, J n).
Proof.
  apply hoare_mark_mine. intros self [HI Hlen].
  split; [by apply I_mark_mine | by simpl; rewrite length_fmap].
Qed.

Lemma simple_facts_stable n i :
  (i < n)%nat → hoare (J n) (simple_facts i) (λ _, J n).
Proof.
  intros Hi. unfold simple_facts.
  eapply hoare_bind.
  { eapply hoare_pre; [apply (hoare_sentence_at i (J n)) |].
    intros self [? Hlen]. split; [done | lia]. }
  intros sentence. eapply hoare_bind.
  { eapply hoare_pre; [apply hoare_for; intros; apply mark_safe_stable |].
    by intros self [? _]. }
  intros ?. eapply hoare_bind.
  { eapply hoare_pre; [apply (hoare_sentence_at i (J n)) |].
    intros self [? Hlen]. split; [done | lia]. }
  intros sentence'.
  eapply hoare_pre; [apply hoare_for; intros; apply mark_mine_stable |].
  by intros self [? _].
Qed.

Lemma simple_fact_pass_stable : hoare I simple_fact_pass (λ _, I).
Proof.
  apply hoare_self. intros self1 H1.
  unfold simple_fact_pass. eapply hoare_bind.
  { apply hoare_gets. intros self ->.
    instantiate (1 := λ n self, J n self). split; [done | reflexivity]. }
  intros n. cbv beta.
  eapply hoare_conseq.
  - apply (hoare_for_knowledge n I simple_facts).
    intros i Hi. by apply simple_facts_stable.
  - done.
  - by intros ? self [? _].
Qed.

Lemma resolve_pair_stable sentence1 sentence2 :
  hoare I (resolve_pair sentence1 sentence2) (λ _, I).
Proof.
  unfold resolve_pair.
  destruct (orient sentence1 sentence2) as [[[subset bigset] diff_count] |];
    [| by apply hoare_ret].
  destruct (decide (subset ⊆ bigset)); [| by apply hoare_ret].
  destruct (decide (len (bigset ∖ subset) = 1)) as [Hlen |].
  - destruct (decide (diff_count = 0)).
    { apply hoare_pop_and; [done |]. intros x _.
      apply hoare_forget_length. intros k. apply mark_safe_stable. }
    destruct (decide (diff_count = 1)); [| by apply hoare_ret].
    apply hoare_pop_and; [done |]. intros x _.
    apply hoare_forget_length. intros k. apply mark_mine_stable.
  - apply hoare_modify. intros self HI. by apply I_append.
Qed.

Lemma subset_sweep_stable : hoare I subset_sweep (λ _, I).
Proof.
  unfold subset_sweep. eapply hoare_bind.
  { apply hoare_gets. intros self H. instantiate (1 := λ _, I). exact H. }
  intros ks. apply (hoare_sweep_loop I (λ _, True)).
  - intros. apply resolve_pair_stable.
  - by apply Forall_forall.
  - lia.
Qed.

Lemma steps_4_5_stable : hoare I steps_4_5 (λ _, I).
Proof.
  unfold steps_4_5. eapply hoare_bind; [apply simple_fact_pass_stable |].
  intros ?. apply subset_sweep_stable.
Qed.

End stable.

Lemma kept_refl self : kept self self.
Proof. intros i s Hi. exists s. split; [done |]. set_solver. Qed.

Lemma kept_mark_safe self0 self cell :
  kept self0 self →
  kept self0 (AI (height self) (width self) (moves_made self) (mines self)
                 ({[cell]} ∪ safes self) (Sentence.mark_safe cell <$> knowledge self)).
Proof.
  intros Hk i s Hi. destruct (Hk i s Hi) as (s' & Hs' & Hsub & Hcov).
  exists (Sentence.mark_safe cell s'). simpl.
  split; [by rewrite list_lookup_fmap, Hs' |].
  unfold Sentence.mark_safe. case_decide; simpl; (split; [set_solver |]);
    intros y Hy; destruct (decide (y = cell)); set_solver.
Qed.

Lemma kept_mark_mine self0 self cell :
  kept self0 self →
  kept self0 (AI (height self) (width self) (moves_made self) ({[cell]} ∪ mines self)
                 (safes self) (Sentence.mark_mine cell <$> knowledge self)).
Proof.
  intros Hk i s Hi. destruct (Hk i s Hi) as (s' & Hs' & Hsub & Hcov).
  exists (Sentence.mark_mine cell s'). simpl.
  split; [by rewrite list_lookup_fmap, Hs' |].
  unfold Sentence.mark_mine. case_decide; simpl; (split; [set_solver |]);
    intros y Hy; destruct (decide (y = cell)); set_solver.
Qed.

Lemma kept_append self0 self sentence :
  kept self0 self → kept self0 (set_knowledge (knowledge self ++ [sentence]) self).
Proof.
  intros Hk i s Hi. destruct (Hk i s Hi) as (s' & Hs' & Hsub & Hcov).
  exists s'. simpl. split; [| done].
  rewrite lookup_app_l; [done |]. by eapply lookup_lt_Some.
Qed.

Lemma kept_observed cell count self : kept self (observed cell count self).
Proof.
  unfold observed, exec, mbind, M_bind, bind.
  rewrite record_move_run, new_sentence_run, append_if_new_run. simpl.
  intros i s Hi. exists s.
  case_decide; simpl.
  - split; [done | set_solver].
  - split; [| set_solver]. rewrite lookup_app_l; [done |]. by eapply lookup_lt_Some.
Qed.

(** X9: [add_knowledge] never drops or moves a sentence.  A sentence
    held before the call is at the same position afterwards; it may have
    lost cells and has gained none, and every cell it lost is in [mines]
    or in [safes]. *)
Theorem add_knowledge_keeps_sentences cell count self i sentence :
  knowledge self !! i = Some sentence →
  ∃ sentence',
    knowledge (exec (add_knowledge cell count) self) !! i = Some sentence' ∧
    Sentence.cells sentence' ⊆ Sentence.cells sentence ∧
    Sentence.cells sentence ∖ Sentence.cells sentence'
      ⊆ mines (exec (add_knowledge cell count) self)
        ∪ safes (exec (add_knowledge cell count) self).
Proof.
  intros Hi.
  pose proof (steps_4_5_stable (kept self)
                (λ s c, kept_mark_safe self s c)
                (λ s c, kept_mark_mine self s c)
                (λ s x, kept_append self s x)) as Hloops.
  destruct (Hloops (observed cell count self) (kept_observed cell count self))
    as ([] & self' & Hrun & Hkept).
  unfold exec. rewrite add_knowledge_steps. fold steps_4_5. rewrite Hrun. simpl.
  destruct (Hkept i sentence Hi) as (s' & Hs' & Hsub & Hcov).
  exists s'. split_and!; [done | done | set_solver].
Qed.

Lemma add_knowledge_keeps_sentences_witness :
  ∃ sentence',
    knowledge (exec (add_knowledge (0, 1) 0) (ingest_all [((0, 0), 1)] (init 3 3)))
      !! 0%nat = Some sentence' ∧
    Sentence.cells sentence'
      ⊆ Sentence.cells (Sentence.Sentence {[(0, 1); (1, 0); (1, 1)]} 1) ∧
    Sentence.cells (Sentence.Sentence {[(0, 1); (1, 0); (1, 1)]} 1)
      ∖ Sentence.cells sentence'
      ⊆ mines (exec (add_knowledge (0, 1) 0) (ingest_all [((0, 0), 1)] (init 3 3)))
        ∪ safes (exec (add_knowledge (0, 1) 0) (ingest_all [((0, 0), 1)] (init 3 3))).
Proof. apply add_knowledge_keeps_sentences. by vm_compute. Defined.

(** ** A knowledge base driven by the game *)

Lemma played_is_sound board height width self :
  played board height width self → sound board self.
Proof.
  induction 1 as [| self cell _ IH Hc | self iter _ IH | self choice _ IH].
  - unfold sound, init; simpl. split_and!; [set_solver | set_solver | constructor].
  - by apply add_knowledge_sound.
  - unfold exec.
    destruct (make_safe_move_run iter self) as [[-> _] | (c & _ & _ & ->)]; done.
  - unfold exec.
    destruct (make_random_move_run choice self) as [[_ ->] | (c & _ & ->)]; done.
Qed.

Lemma driven_played game self :
  game_wf game → driven game self →
  played (Minesweeper.mines game) (Minesweeper.height game) (Minesweeper.width game) self.
Proof.
  intros Hwf. induction 1 as [| self cell count _ IH Hcell Hcount | self iter _ IH
                             | self choice _ IH].
  - apply played_init.
  - by apply played_with_game.
  - by apply played_safe_move.
  - by apply played_random_move.
Qed.

(** X10: a knowledge base that is driven by a well-formed game only
    holds true facts: every cell in [mines] is a mine of the game, no
    cell in [safes] is one, the count of every sentence is the number of
    mines among its cells, and a cell returned by [make_safe_move] is no
    mine. *)
Theorem game_driven_knowledge_is_true game self :
  game_wf game → driven game self →
  mines self ⊆ Minesweeper.mines game ∧
  safes self ## Minesweeper.mines game ∧
  (∀ sentence, sentence ∈ knowledge self →
     Sentence.count sentence
       = len (Sentence.cells sentence ∩ Minesweeper.mines game)) ∧
  (∀ iter move,
     (∀ x, x ∈ iter (safes self) → x ∈ safes self) →
     outcome (make_safe_move iter) self = Returned (Some move) →
     move ∉ Minesweeper.mines game).
Proof.
  intros Hwf Hdriven.
  destruct (played_is_sound _ _ _ _ (driven_played game self Hwf Hdriven))
    as (Hm & Hs & Hk).
  split_and!; [done | done | |].
  - intros s Hin. rewrite Forall_forall in Hk. by apply Hk.
  - intros iter move Hiter Hout. unfold outcome in Hout.
    destruct (make_safe_move_run iter self) as [[Heq _] | (c & Hc & _ & Heq)];
      rewrite Heq in Hout; simpl in Hout; [discriminate |].
    inversion Hout; subst. apply Hiter in Hc. set_solver.
Qed.

Lemma corner_game_driven :
  driven corner_game (exec (add_knowledge (0, 0) 0) (init 3 3)).
Proof.
  apply (driven_add_knowledge corner_game (init 3 3) (0, 0) 0);
    [apply driven_init | by vm_compute | by vm_compute].
Qed.

Lemma game_driven_knowledge_is_true_witness :
  mines (exec (add_knowledge (0, 0) 0) (init 3 3)) ⊆ Minesweeper.mines corner_game ∧
  safes (exec (add_knowledge (0, 0) 0) (init 3 3)) ## Minesweeper.mines corner_game ∧
  (∀ sentence, sentence ∈ knowledge (exec (add_knowledge (0, 0) 0) (init 3 3)) →
     Sentence.count sentence
       = len (Sentence.cells sentence ∩ Minesweeper.mines corner_game)) ∧
  (∀ iter move,
     (∀ x, x ∈ iter (safes (exec (add_knowledge (0, 0) 0) (init 3 3))) →
           x ∈ safes (exec (add_knowledge (0, 0) 0) (init 3 3))) →
     outcome (make_safe_move iter) (exec (add_knowledge (0, 0) 0) (init 3 3))
       = Returned (Some move) →
     move ∉ Minesweeper.mines corner_game).
Proof.
  apply game_driven_knowledge_is_true; [apply corner_game_wf | apply corner_game_driven].
Defined.

Section scenario.
Variable board : gset Cell.
Variable self1 : MinesweeperAI.t.
Variable p : nat.
Variable observation : Sentence.t.
Hypothesis Hp : knowledge self1 !! p = Some observation.
Hypothesis Htrue : true_sentence board observation.

Lemma simple_facts_scenario n i :
  (i < n)%nat →
  hoare (λ self, scenario_inv board self1 p observation i self ∧ length (knowledge self) = n)
        (simple_facts i)
        (λ _ self, scenario_inv board self1 p observation (S i) self ∧ length (knowledge self) = n).
Proof.
  intros Hi self [(Hsound & Hkept & Hset) Hlen].
  destruct (simple_facts_sound board n i Hi self (conj Hsound Hlen))
    as ([] & self' & Hrun & Hsound' & Hlen').
  destruct (simple_facts_stable (kept self1) (kept_mark_safe self1) (kept_mark_mine self1)
              n i Hi self (conj Hkept Hlen))
    as ([] & self'' & Hrun' & Hkept' & _).
  assert (self'' = self') as -> by congruence.
  exists tt, self'. split; [done |]. split; [| done].
  split_and!; [done | done |]. intros Hpi.
  destruct (lookup_lt_is_Some_2 (knowledge self) i) as [s Hs]; [lia |].
  pose proof (simple_facts_run i self s Hs) as Hclosed. cbv zeta in Hclosed.
  rewrite Hrun in Hclosed. inversion Hclosed as [Hself']. clear Hclosed.
  destruct (decide (p = i)) as [-> | Hne].
  - destruct (Hkept i observation Hp) as (s0 & Hs0 & Hsub & Hcov).
    assert (s0 = s) as -> by congruence.
    destruct Hsound as (Hm & Hsafe & Hk).
    assert (true_sentence board s) as Hs_true.
    { rewrite Forall_forall in Hk. apply Hk. by eapply list_elem_of_lookup_2. }
    unfold true_sentence, len in Htrue, Hs_true.
    split; simpl.
    + intros H0. rewrite H0 in Htrue.
      assert (Sentence.cells observation ∩ board = ∅) as Hnone.
      { apply leibniz_equiv, size_empty_inv. lia. }
      assert (Sentence.count s = 0) as Hs0'.
      { rewrite Hs_true.
        assert (Sentence.cells s ∩ board = ∅) as -> by set_solver.
        by rewrite size_empty. }
      unfold Sentence.known_safes. rewrite decide_True by done. set_solver.
    + intros Hfull.
      assert (Sentence.cells observation ∩ board = Sentence.cells observation) as Hall.
      { apply set_subseteq_size_eq; [set_solver | unfold len in Hfull; lia]. }
      assert (Sentence.cells s ∩ board = Sentence.cells s) as Hs_all by set_solver.
      rewrite Hs_all in Hs_true.
      assert (Sentence.known_safes s = ∅) as Hks.
      { unfold Sentence.known_safes. case_decide as H0; [| done].
        apply leibniz_equiv, size_empty_inv. lia. }
      rewrite Hks, mark_safe_all_empty.
      unfold Sentence.known_mines. rewrite decide_True by (unfold len; lia).
      set_solver.
  - destruct Hset as [Hs1 Hs2]; [lia |]. split; simpl.
    + intros H0. specialize (Hs1 H0). set_solver.
    + intros Hfull. specialize (Hs2 Hfull). set_solver.
Qed.

Lemma simple_fact_pass_scenario :
  sound board self1 →
  ∃ self2, simple_fact_pass self1 = (Returned tt, self2) ∧
           sound board self2 ∧ settled_observation observation self2.
Proof.
  intros Hsound.
  destruct (hoare_for_knowledge_at (length (knowledge self1))
              (scenario_inv board self1 p observation) simple_facts)
    with (fuel := length (knowledge self1)) (i := 0%nat) (self := self1)
    as ([] & self2 & Hrun & (Hsound2 & _ & Hset) & _); try lia.
  { intros i Hi. by apply simple_facts_scenario. }
  { split; [| done]. split_and!; [done | apply kept_refl | lia]. }
  exists self2. split_and!; [| done |].
  - unfold simple_fact_pass. erewrite bind_run by reflexivity. exact Hrun.
  - apply Hset. by eapply lookup_lt_Some.
Qed.

End scenario.

Lemma resolved_observation_played board height width self cell :
  played board height width self → cell ∉ board →
  ∃ sentence,
    outcome (record_move cell;; new_sentence cell (hazard_count board self cell)) self
      = Returned sentence ∧
    (Sentence.count sentence = 0 →
     Sentence.cells sentence
       ⊆ safes (exec (add_knowledge cell (hazard_count board self cell)) self)) ∧
    (len (Sentence.cells sentence) = Sentence.count sentence →
     Sentence.cells sentence
       ⊆ mines (exec (add_knowledge cell (hazard_count board self cell)) self)).
Proof.
  intros Hplayed Hcell.
  pose proof (played_is_sound _ _ _ _ Hplayed) as Hsound.
  pose proof (observed_sound board cell self Hcell Hsound) as Hsound1.
  set (count := hazard_count board self cell) in *.
  set (self1 := observed cell count self) in *.
  assert (∃ sentence,
            outcome (record_move cell;; new_sentence cell count) self = Returned sentence ∧
            sentence ∈ knowledge self1) as (sentence & Hout & Hin).
  { unfold outcome, self1, observed, exec, mbind, M_bind, bind.
    rewrite record_move_run, new_sentence_run, append_if_new_run. simpl.
    eexists. split; [reflexivity |].
    case_decide; simpl; [done |]. apply elem_of_app. right. by left. }
  exists sentence. split; [done |].
  apply list_elem_of_lookup in Hin as [p Hp].
  assert (true_sentence board sentence) as Htrue.
  { destruct Hsound1 as (_ & _ & Hk1). rewrite Forall_forall in Hk1.
    apply Hk1. by eapply list_elem_of_lookup_2. }
  destruct (simple_fact_pass_scenario board self1 p sentence Hp Htrue Hsound1)
    as (self2 & Hpass & Hsound2 & Hset1 & Hset2).
  destruct (subset_sweep_grows self2 self2 (grows_refl self2))
    as ([] & self3 & Hsweep & (_ & _ & _ & Hmines & Hsafes)).
  assert (exec (add_knowledge cell count) self = self3) as ->.
  { unfold exec. rewrite add_knowledge_steps. fold self1.
    erewrite bind_run by exact Hpass. by rewrite Hsweep. }
  split; intros H; [specialize (Hset1 H) | specialize (Hset2 H)]; set_solver.
Qed.

(** X11: in a game-driven knowledge base, an observation that settles
    its cells is acted on within the call.  If the sentence built from
    the new observation has count 0, all its cells are in [safes] when
    [add_knowledge] returns; if its count equals the number of its
    cells, all of them are in [mines]. *)
Theorem resolved_observation_is_marked game self cell count :
  game_wf game → driven game self →
  Minesweeper.is_mine cell game = Returned false →
  Minesweeper.nearby_mines cell game = Returned count →
  ∃ sentence,
    outcome (record_move cell;; new_sentence cell count) self = Returned sentence ∧
    (Sentence.count sentence = 0 →
     Sentence.cells sentence ⊆ safes (exec (add_knowledge cell count) self)) ∧
    (len (Sentence.cells sentence) = Sentence.count sentence →
     Sentence.cells sentence ⊆ mines (exec (add_knowledge cell count) self)).
Proof.
  intros Hwf Hdriven Hcell Hcount.
  pose proof (driven_played game self Hwf Hdriven) as Hplayed.
  destruct (played_dims _ _ _ _ Hplayed) as [Hh Hw].
  rewrite (nearby_mines_hazard_count game self cell Hwf Hh Hw) in Hcount.
  injection Hcount as <-.
  apply (resolved_observation_played _ _ _ _ _ Hplayed).
  by eapply is_mine_false.
Qed.

Lemma resolved_observation_is_marked_witness :
  ∃ sentence,
    outcome (record_move (0, 0);; new_sentence (0, 0) 0) (init 3 3) = Returned sentence ∧
    (Sentence.count sentence = 0 →
     Sentence.cells sentence ⊆ safes (exec (add_knowledge (0, 0) 0) (init 3 3))) ∧
    (len (Sentence.cells sentence) = Sentence.count sentence →
     Sentence.cells sentence ⊆ mines (exec (add_knowledge (0, 0) 0) (init 3 3))).
Proof.
  apply (resolved_observation_is_marked corner_game (init 3 3) (0, 0) 0);
    [apply corner_game_wf | apply driven_init | by vm_compute | by vm_compute].
Defined.

(** ** The move selectors *)

(** X12: [make_safe_move], for an iteration order that visits exactly
    the cells of [safes].  It raises nothing.  A cell it returns is a
    known safe that was not a move made, and the only change to the
    state is that cell added to [moves_made]; it returns [None] exactly
    when every known safe is a move made, and then changes nothing. *)
Theorem make_safe_move_spec iter self :
  (∀ x, x ∈ iter (safes self) ↔ x ∈ safes self) →
  match outcome (make_safe_move iter) self with
  | Returned (Some move) =>
      move ∈ safes self ∧ (move ∉ moves_made self) ∧
      exec (make_safe_move iter) self
        = AI (height self) (width self) ({[move]} ∪ moves_made self)
             (mines self) (safes self) (knowledge self)
  | Returned None =>
      safes self ⊆ moves_made self ∧ exec (make_safe_move iter) self = self
  | Raised _ => False
  end.
Proof.
  intros Hiter. unfold outcome, exec.
  destruct (make_safe_move_run iter self) as [[-> Hall] | (c & Hc & Hnot & ->)]; simpl.
  - split; [| done]. intros x Hx. apply Hall. by apply Hiter.
  - split_and!; [by apply Hiter | done | done].
Qed.

Lemma make_safe_move_spec_witness :
  match outcome (make_safe_move elements) (ingest_all [((0, 0), 0)] (init 3 3)) with
  | Returned (Some move) =>
      move ∈ safes (ingest_all [((0, 0), 0)] (init 3 3)) ∧
      (move ∉ moves_made (ingest_all [((0, 0), 0)] (init 3 3))) ∧
      exec (make_safe_move elements) (ingest_all [((0, 0), 0)] (init 3 3))
        = AI (height (ingest_all [((0, 0), 0)] (init 3 3)))
             (width (ingest_all [((0, 0), 0)] (init 3 3)))
             ({[move]} ∪ moves_made (ingest_all [((0, 0), 0)] (init 3 3)))
             (mines (ingest_all [((0, 0), 0)] (init 3 3)))
             (safes (ingest_all [((0, 0), 0)] (init 3 3)))
             (knowledge (ingest_all [((0, 0), 0)] (init 3 3)))
  | Returned None =>
      safes (ingest_all [((0, 0), 0)] (init 3 3))
        ⊆ moves_made (ingest_all [((0, 0), 0)] (init 3 3)) ∧
      exec (make_safe_move elements) (ingest_all [((0, 0), 0)] (init 3 3))
        = ingest_all [((0, 0), 0)] (init 3 3)
  | Raised _ => False
  end.
Proof. apply make_safe_move_spec. intros x. apply elem_of_elements. Defined.

(** X13: [make_random_move], for every random choice.  It raises
    nothing.  A cell it returns lies on the board, is not a known mine
    and was not a move made, and the only change to the state is that
    cell added to [moves_made]; it returns [None] exactly when every
    cell of the board is a known mine or a move made (so always on a
    board without cells), and then changes nothing. *)
Theorem make_random_move_spec choice self :
  match outcome (make_random_move choice) self with
  | Returned (Some move) =>
      in_bounds self move ∧ (move ∉ mines self) ∧ (move ∉ moves_made self) ∧
      exec (make_random_move choice) self
        = AI (height self) (width self) ({[move]} ∪ moves_made self)
             (mines self) (safes self) (knowledge self)
  | Returned None =>
      (∀ x, in_bounds self x → x ∈ mines self ∨ x ∈ moves_made self) ∧
      exec (make_random_move choice) self = self
  | Raised _ => False
  end.
Proof.
  unfold outcome, exec.
  destruct (make_random_move_run choice self) as [[Hnil ->] | (c & Hc & ->)]; simpl.
  - split; [| done]. intros x Hx.
    destruct (decide (x ∈ mines self)) as [| Hm]; [by left |].
    destruct (decide (x ∈ moves_made self)) as [| Hmm]; [by right |].
    exfalso. apply (filter_nil_not_elem_of _ _ x Hnil); [done |].
    by apply elem_of_board_cells.
  - apply list_elem_of_lookup_2 in Hc. unfold potential_moves in Hc.
    apply list_elem_of_filter in Hc as [[Hm Hmm] Hb].
    apply elem_of_board_cells in Hb. done.
Qed.
